(** * x10 graph runtime: barrier, IR nodes, mesh rendezvous, tensor equality

    A shallow embedding of the parts of the x10 runtime that the
    specification makes checkable statements about:

    - [MultiWait]: [xla_client/multi_wait.cc], the completion barrier;
    - [IR]: the [Clone]/[Lower]/shape code of the operation nodes under
      [xla_tensor/ops];
    - [Mesh]: the rendezvous service behind [MeshClient::Rendezvous];
    - [TensorEq]: the [Equatable] conformance of [Tensor]. *)

From stdpp Require Import gmap strings list fin_maps.
From Stdlib Require Import ZArith Lia QArith.
Close Scope Q_scope.

#[local] Set Warnings "-register-all".

(** ** size_t arithmetic *)

Definition size_t_modulus : Z := (2 ^ 64)%Z.

(** [x + 1] on a [size_t]. *)
Definition size_t_succ (x : Z) : Z := ((x + 1) mod size_t_modulus)%Z.

(* ===================================================================== *)
(** * MultiWait *)
(* ===================================================================== *)

Module MultiWait.

Section Barrier.
(** What a [std::exception_ptr] points to. *)
Context {Exn : Type}.

(** The data members of [MultiWait] that carry state.  [mutex_] and
    [cv_] are modelled by the atomicity of the functions below and by
    the thread system further down. *)
Record t := mk {
  count_ : Z;
  completed_count_ : Z;
  exptr_ : option Exn
}.

(** [MultiWait::Reset]. *)
Definition Reset (count : Z) (_ : t) : t :=
  {| count_ := count; completed_count_ := 0; exptr_ := None |}.

(** The predicate [completed_count_ >= count_] that [Done] and both
    [Wait]s evaluate under the mutex. *)
Definition reached (m : t) : bool := (count_ m <=? completed_count_ m)%Z.

(** [MultiWait::Done]: the critical section, and the decision taken in
    it whether [cv_.notify_all()] is called after the lock is dropped. *)
Definition Done (m : t) : t * bool :=
  let m' := {| count_ := count_ m;
               completed_count_ := size_t_succ (completed_count_ m);
               exptr_ := exptr_ m |} in
  (m', reached m').

(** The [catch (...)] block of the closure made by [Completer]. *)
Definition capture (e : Exn) (m : t) : t :=
  {| count_ := count_ m;
     completed_count_ := completed_count_ m;
     exptr_ := Some e |}.

(** How a call of a [std::function<void()>] ends. *)
Inductive Outcome :=
| Normal
| Raised (e : Exn).

(** The closure returned by [MultiWait::Completer], run to its end
    without interference: [try { func(); } catch (...) {...} Done();].
    The wrapped work does not touch the barrier itself. *)
Definition Completer (func : Outcome) (m : t) : t * bool :=
  let m1 := match func with
            | Normal => m
            | Raised e => capture e m
            end in
  Done m1.

(** What a caller of a wait observes. *)
Inductive WaitResult :=
| Blocked              (* still inside cv_.wait *)
| Returned             (* the call returned normally *)
| Rethrown (e : Exn)   (* std::rethrow_exception(exptr_) *)
| Fatal.               (* TF_LOG(FATAL): the process is gone *)

(** The tail shared by both waits, entered once the predicate held. *)
Definition deliver (m : t) : WaitResult :=
  match exptr_ m with
  | Some e => Rethrown e
  | None => Returned
  end.

(** [MultiWait::Wait()] against the barrier state [m]. *)
Definition Wait (m : t) : WaitResult :=
  if reached m then deliver m else Blocked.

(** [cv_.wait_for(lock, duration, pred)].  [seen] are the barrier
    states at the successive evaluations of the predicate before the
    deadline (the first one on entry); [at_timeout] is the state when
    the deadline passes, where the predicate is evaluated a last time.
    The result is the flag [wait_for] returns and the state it saw. *)
Fixpoint wait_for (seen : list t) (at_timeout : t) : bool * t :=
  match seen with
  | [] => (reached at_timeout, at_timeout)
  | m :: later => if reached m then (true, m) else wait_for later at_timeout
  end.

(** [MultiWait::Wait(double wait_seconds)], over the evaluations of
    the predicate that the timeout leaves room for. *)
Definition WaitTimed (entry : t) (wakeups : list t) (at_timeout : t)
  : WaitResult :=
  let '(ok, m) := wait_for (entry :: wakeups) at_timeout in
  if negb ok then Fatal else deliver m.



(** [k] calls of [Done] in the order in which they take the mutex;
    the flags tell which of them broadcast. *)
Fixpoint Done_times (k : nat) (m : t) : t * list bool :=
  match k with
  | O => (m, [])
  | S k' => let '(m1, b) := Done m in
            let '(m2, bs) := Done_times k' m1 in
            (m2, b :: bs)
  end.

(** ** Threads

    Every access to the counters and to [exptr_] happens with [mutex_]
    held, so a thread moves in atomic steps: running the wrapped work,
    the catch block, the critical section of [Done], the broadcast,
    and the locked predicate check of [Wait]. *)

Inductive pc :=
| CRun (func : Outcome)  (* completer: about to call func() *)
| CCatch (e : Exn)       (* completer: func() threw, lock not yet taken *)
| CDone                  (* completer: about to run Done() *)
| CNotify                (* completer: left the lock with notify = true *)
| CFinished              (* completer: closure returned *)
| WCheck                 (* waiter: about to evaluate the predicate *)
| WSleep                 (* waiter: asleep on cv_ *)
| WExit (r : WaitResult). (* waiter: Wait() is over *)

Inductive event :=
| EvCapture (e : Exn)          (* exptr_ was assigned *)
| EvDone (tid : nat)           (* completed_count_ was incremented *)
| EvNotify (tid : nat)         (* cv_.notify_all() *)
| EvExit (tid : nat) (r : WaitResult).

(** The barrier, the threads using it and the events so far, newest
    first. *)
Record system := mkSys {
  mw : t;
  threads : list pc;
  trace : list event
}.

(** [cv_.notify_all()] on one thread. *)
Definition wake (p : pc) : pc :=
  match p with
  | WSleep => WCheck
  | _ => p
  end.

(** One atomic step of thread [i]; a thread that cannot move (finished,
    asleep, or no such thread) leaves the system as it is. *)
Definition step (i : nat) (s : system) : system :=
  match threads s !! i with
  | Some (CRun Normal) =>
      mkSys (mw s) (<[i := CDone]> (threads s)) (trace s)
  | Some (CRun (Raised e)) =>
      mkSys (mw s) (<[i := CCatch e]> (threads s)) (trace s)
  | Some (CCatch e) =>
      mkSys (capture e (mw s)) (<[i := CDone]> (threads s))
            (EvCapture e :: trace s)
  | Some CDone =>
      let '(m, notify) := Done (mw s) in
      mkSys m (<[i := if notify then CNotify else CFinished]> (threads s))
            (EvDone i :: trace s)
  | Some CNotify =>
      mkSys (mw s) (<[i := CFinished]> (wake <$> threads s))
            (EvNotify i :: trace s)
  | Some WCheck =>
      if reached (mw s)
      then mkSys (mw s) (<[i := WExit (deliver (mw s))]> (threads s))
                 (EvExit i (deliver (mw s)) :: trace s)
      else mkSys (mw s) (<[i := WSleep]> (threads s)) (trace s)
  | Some CFinished | Some WSleep | Some (WExit _) | None => s
  end.

(** What the scheduler can do: let a thread take its step, or wake a
    sleeping waiter for no reason (condition variables may). *)
Inductive action :=
| Run (i : nat)
| Spurious (i : nat).

Definition exec (a : action) (s : system) : system :=
  match a with
  | Run i => step i s
  | Spurious i =>
      match threads s !! i with
      | Some WSleep => mkSys (mw s) (<[i := WCheck]> (threads s)) (trace s)
      | _ => s
      end
  end.

Definition run (sched : list action) (s : system) : system :=
  foldl (fun s a => exec a s) s sched.

(** A generation: [Reset(N)] for the [N] completer closures [works],
    and [waiters] threads that will call [Wait()]. *)
Definition start (works : list Outcome) (waiters : nat) : system :=
  mkSys (Reset (Z.of_nat (length works)) (mk 0 0 None))
        ((CRun <$> works) ++ replicate waiters WCheck)
        [].

(** The failures assigned to [exptr_], newest first. *)
Fixpoint captures (tr : list event) : list Exn :=
  match tr with
  | [] => []
  | EvCapture e :: tr' => e :: captures tr'
  | _ :: tr' => captures tr'
  end.

(** Number of increments of [completed_count_] in a trace. *)
Fixpoint dones (tr : list event) : Z :=
  match tr with
  | [] => 0
  | EvDone _ :: tr' => (1 + dones tr')%Z
  | _ :: tr' => dones tr'
  end.

(** Number of broadcasts in a trace. *)
Fixpoint notifies (tr : list event) : nat :=
  match tr with
  | [] => 0
  | EvNotify _ :: tr' => S (notifies tr')
  | _ :: tr' => notifies tr'
  end.

(** Every exit of a waiter in the trace happened when [n] increments
    had already taken place, and delivered [r]. *)
Fixpoint exits_after (n : Z) (r : WaitResult) (tr : list event) : Prop :=
  match tr with
  | [] => True
  | EvExit _ r' :: tr' => dones tr' = n ∧ r' = r ∧ exits_after n r tr'
  | _ :: tr' => exits_after n r tr'
  end.

Definition is_completer (p : pc) : bool :=
  match p with
  | CRun _ | CCatch _ | CDone | CNotify | CFinished => true
  | _ => false
  end.

Definition completer_finished (p : pc) : bool :=
  match p with
  | CFinished => true
  | p => negb (is_completer p)
  end.

Definition all_completers_finished (s : system) : bool :=
  forallb completer_finished (threads s).

(** The place thread code moves to when it takes its step against the
    barrier state [m] (the control part of [step]). *)
Definition next_pc (m : t) (p : pc) : pc :=
  match p with
  | CRun Normal => CDone
  | CRun (Raised e) => CCatch e
  | CCatch _ => CDone
  | CDone => if snd (Done m) then CNotify else CFinished
  | CNotify => CFinished
  | WCheck => if reached m then WExit (deliver m) else WSleep
  | p => p
  end.

(** Number of threads whose place satisfies [f]. *)
Fixpoint tally (f : pc -> bool) (l : list pc) : Z :=
  match l with
  | [] => 0
  | p :: l' => ((if f p then 1 else 0) + tally f l')%Z
  end.

(** Completer has left the critical section of [Done]. *)
Definition past_done (p : pc) : bool :=
  match p with CNotify | CFinished => true | _ => false end.

(** Completer has not yet entered the critical section of [Done]. *)
Definition before_done (p : pc) : bool :=
  match p with CRun _ | CCatch _ | CDone => true | _ => false end.

Definition asleep (p : pc) : bool :=
  match p with WSleep => true | _ => false end.

Definition notifying (p : pc) : bool :=
  match p with CNotify => true | _ => false end.

(** A schedule that lets every thread run to its end: each of the
    [n] threads gets four turns (the longest path of a completer), then
    each gets one more (the predicate check of a waiter). *)
Definition drain (n : nat) : list action :=
  flat_map (fun i => [Run i; Run i; Run i; Run i]) (seq 0 n)
  ++ flat_map (fun i => [Run i]) (seq 0 n).

(** The number of own steps a completer can still take, at most. *)
Definition steps_left (p : pc) : nat :=
  match p with
  | CRun (Raised _) => 4
  | CRun Normal => 3
  | CCatch _ => 3
  | CDone => 2
  | CNotify => 1
  | _ => 0
  end.

(** What holds of a generation started by [start works _] at every
    point of every schedule. *)
Record generation_inv (works : list Outcome) (s : system) : Prop := {
  inv_count : count_ (mw s) = Z.of_nat (length works);
  inv_completed : completed_count_ (mw s) = tally past_done (threads s);
  inv_total :
    (tally past_done (threads s) + tally before_done (threads s))%Z
    = Z.of_nat (length works);
  inv_dones : dones (trace s) = completed_count_ (mw s);
  inv_exptr : exptr_ (mw s) = head (captures (trace s));
  inv_sleep :
    reached (mw s) = true ->
    tally asleep (threads s) = 0%Z \/ (0 < tally notifying (threads s))%Z;
  inv_notify :
    (0 < Z.of_nat (length works))%Z ->
    (Z.of_nat (notifies (trace s)) + tally notifying (threads s))%Z
    = (if reached (mw s) then 1 else 0)%Z;
  inv_exit :
    forall i r, threads s !! i = Some (WExit r) ->
                reached (mw s) = true /\ r = deliver (mw s);
  inv_trace :
    exits_after (Z.of_nat (length works)) (deliver (mw s)) (trace s);
  inv_run :
    forall i w, threads s !! i = Some (CRun w) -> works !! i = Some w;
  inv_catch :
    forall i e, threads s !! i = Some (CCatch e) ->
                works !! i = Some (Raised e);
  inv_captured :
    forall e, e ∈ captures (trace s) -> Raised e ∈ works;
  inv_raised :
    forall i e, works !! i = Some (Raised e) ->
                threads s !! i = Some (CRun (Raised e))
                \/ threads s !! i = Some (CCatch e)
                \/ e ∈ captures (trace s)
}.

End Barrier.

Arguments t : clear implicits.
Arguments Outcome : clear implicits.
Arguments WaitResult : clear implicits.
Arguments pc : clear implicits.
Arguments event : clear implicits.
Arguments system : clear implicits.

End MultiWait.

(* ===================================================================== *)
(** * IR nodes *)
(* ===================================================================== *)

Module IR.

(** [xla::PrimitiveType] and [at::ScalarType] are enumerations; their
    values are kept as the integers they are. *)
Definition PrimitiveType := Z.
Definition ScalarType := Z.

(** A [double], as its 64 bits: the nodes only store and pass it on. *)
Definition double := Z.

(** [at::Scalar]: a floating-point or an integral constant. *)
Inductive Scalar :=
| ScalarDouble (bits : double)
| ScalarInt (v : Z).

(** [xla::Shape], without its layout. *)
Inductive Shape :=
| ArrayShape (element_type : PrimitiveType) (dimensions : list Z)
| TupleShape (tuple_shapes : list Shape).

(** [ir::OpKind], by the qualified name of its symbol. *)
Definition OpKind := string.
Definition aten_prod : OpKind := "aten::prod".
Definition aten_leaky_relu : OpKind := "aten::leaky_relu".
Definition aten_upsample_nearest2d : OpKind := "aten::upsample_nearest2d".
Definition aten_softshrink : OpKind := "aten::softshrink".
Definition aten_reflection_pad2d_backward : OpKind :=
  "aten::reflection_pad2d_backward".
Definition aten_log_softmax_backward_data : OpKind :=
  "aten::_log_softmax_backward_data".
Definition aten_expand : OpKind := "aten::expand".
Definition aten_hardtanh_backward : OpKind := "aten::hardtanh_backward".
Definition xla_unselect : OpKind := "xla::unselect".

(** The lowering callback held by a [Generic] node: an opaque handle
    that [Clone] copies. *)
Definition LowerFn := nat.

(** An argument handed to [xla::util::MHash]. *)
Inductive HashArg :=
| HInt (v : Z)
| HBool (b : bool)
| HInts (l : list Z)
| HDouble (d : double)
| HHash (h : Z).

(** The hash functions of [xla_client/util.h], which the node classes
    call and which are defined outside the files at hand. *)
Class Hashing := {
  HashCombine : Z -> Z -> Z;
  MHash : list HashArg -> Z;
  ScalarHash : Scalar -> Z;
  OpKind_hash : OpKind -> Z
}.

(** The program builder the nodes are lowered to: [xla::XlaOp] and the
    builder functions of [helpers.h], [convert_ops.h], [reduction.h],
    [data_ops.h] and [resize_ops.h] that the node classes call. *)
Class Backend := {
  XlaOp : Type;
  XlaOp_default : XlaOp;                       (* xla::XlaOp() *)
  ShapeOfXlaOp : XlaOp -> Shape;
  TypeOfXlaOp : XlaOp -> PrimitiveType;
  xla_Parameter : Z -> Shape -> XlaOp;
  MakeXlaPrimitiveType : ScalarType -> PrimitiveType;
  ConvertTo : XlaOp -> PrimitiveType -> PrimitiveType -> XlaOp;
  ConvertToNumeric : XlaOp -> PrimitiveType -> XlaOp;
  BuildProd : XlaOp -> list Z -> bool -> XlaOp;
  BuildExpand : XlaOp -> list Z -> XlaOp;
  BuildReflectionPad2dBackward : XlaOp -> XlaOp -> list Z -> XlaOp;
  GetForwardOutputShape2d : Shape -> list Z -> Shape;
  LowerForward2d : string -> XlaOp -> Shape -> bool -> bool -> XlaOp
}.

(** What the shape of a built operation may depend on: the shapes of
    its operands and its static arguments, and nothing else of the
    operands.  A placeholder has the shape it was declared with.  A
    resize that is asked for the forward output shape of its operand
    builds a value of that shape. *)
Class ShapeDetermined (B : Backend) : Prop := {
  xla_Parameter_shape :
    forall i s, ShapeOfXlaOp (xla_Parameter i s) = s;
  TypeOfXlaOp_shape :
    forall x y, ShapeOfXlaOp x = ShapeOfXlaOp y -> TypeOfXlaOp x = TypeOfXlaOp y;
  ConvertTo_shape :
    forall x y from to,
      ShapeOfXlaOp x = ShapeOfXlaOp y ->
      ShapeOfXlaOp (ConvertTo x from to) = ShapeOfXlaOp (ConvertTo y from to);
  ConvertToNumeric_shape :
    forall x y from,
      ShapeOfXlaOp x = ShapeOfXlaOp y ->
      ShapeOfXlaOp (ConvertToNumeric x from)
      = ShapeOfXlaOp (ConvertToNumeric y from);
  BuildProd_shape :
    forall x y dimensions keep,
      ShapeOfXlaOp x = ShapeOfXlaOp y ->
      ShapeOfXlaOp (BuildProd x dimensions keep)
      = ShapeOfXlaOp (BuildProd y dimensions keep);
  BuildExpand_shape :
    forall x y size,
      ShapeOfXlaOp x = ShapeOfXlaOp y ->
      ShapeOfXlaOp (BuildExpand x size) = ShapeOfXlaOp (BuildExpand y size);
  BuildReflectionPad2dBackward_shape :
    forall g g' x x' padding,
      ShapeOfXlaOp g = ShapeOfXlaOp g' -> ShapeOfXlaOp x = ShapeOfXlaOp x' ->
      ShapeOfXlaOp (BuildReflectionPad2dBackward g x padding)
      = ShapeOfXlaOp (BuildReflectionPad2dBackward g' x' padding);
  LowerForward2d_shape :
    forall target x output_size align_corners half_pixel_centers,
      ShapeOfXlaOp
        (LowerForward2d target x
           (GetForwardOutputShape2d (ShapeOfXlaOp x) output_size)
           align_corners half_pixel_centers)
      = GetForwardOutputShape2d (ShapeOfXlaOp x) output_size
}.

(** The data members of the node classes beyond those of [Node]. *)
Inductive Params :=
| ProdP (dimensions_ : list Z) (keep_reduced_dimensions_ : bool)
        (dtype_ : option ScalarType)
| LeakyReluP (negative_slope_ : double)
| UpsampleNearestP (output_size_ : list Z)
| SoftshrinkP (lambda_ : Scalar)
| ReflectionPad2dBackwardP (padding_ : list Z)
| LogSoftmaxBackwardP (dim_ : Z)
| UnselectP (dim_ start_ end_ stride_ : Z)
| ExpandP (size_ : list Z)
| HardtanhBackwardP (min_val_ max_val_ : Scalar)
| GenericP (lower_fn_ : LowerFn) (hash_seed_ : Z).

(** A node, with the output slots of other nodes as operands.  A
    [Value] is a node and the index of one of its outputs. *)
Inductive Node :=
| MkNode (op_ : OpKind) (operands_ : list (Node * Z)) (shape_ : Shape)
         (num_outputs_ : Z) (hash_ : Z) (params_ : Params).

Definition Value : Type := Node * Z.
Definition OpList : Type := list Value.

Definition op (n : Node) : OpKind := let 'MkNode o _ _ _ _ _ := n in o.
Definition operands (n : Node) : OpList := let 'MkNode _ l _ _ _ _ := n in l.
Definition shape (n : Node) : Shape := let 'MkNode _ _ s _ _ _ := n in s.
Definition num_outputs (n : Node) : Z := let 'MkNode _ _ _ k _ _ := n in k.
Definition hash (n : Node) : Z := let 'MkNode _ _ _ _ h _ := n in h.
Definition params (n : Node) : Params := let 'MkNode _ _ _ _ _ p := n in p.

(** Whether the node is of class [Generic]. *)
Definition is_generic (p : Params) : bool :=
  match p with GenericP _ _ => true | _ => false end.

(** [OptionalOr<int>(dtype, -1)]. *)
Definition OptionalOr (o : option ScalarType) (d : Z) : Z :=
  match o with
  | Some v => v
  | None => d
  end.

Section Nodes.
Context `{H : Hashing} `{B : Backend}.

(** Modelled from the spec: [Value::shape()] of [ir.h], which is not
    among the files at hand.  It is the shape of the output slot the
    value refers to: the node's shape, or its [index]-th component when
    the node has several outputs. *)
Definition Value_shape (v : Value) : Shape :=
  match shape (fst v) with
  | TupleShape l => default (TupleShape l) (l !! Z.to_nat (snd v))
  | s => s
  end.

(** Modelled from the spec: the hash of an operand edge, from the hash
    of the node it refers to and the output slot. *)
Definition Value_hash (v : Value) : Z := HashCombine (hash (fst v)) (snd v).

(** Modelled from the spec: the constructor of the base class [Node]
    ([ir.h]/[ir.cpp] are not among the files at hand).  It stores the
    operation kind, the operand edges, the shape and the number of
    outputs, and computes the structural hash at once, combining the
    kind, the seed made from the kind-specific arguments, and the
    hashes of the operands in order. *)
Definition Node_ctor (op : OpKind) (operands : OpList) (shape : Shape)
    (num_outputs : Z) (hash_seed : Z) (p : Params) : Node :=
  MkNode op operands shape num_outputs
         (foldl (fun h v => HashCombine h (Value_hash v))
                (HashCombine (OpKind_hash op) hash_seed) operands)
         p.

(** Modelled from the spec: the constructor of [Node] that takes a
    shape function; the node's shape is what the function returns. *)
Definition Node_ctor_fn (op : OpKind) (operands : OpList)
    (shape_fn : unit -> Shape) (num_outputs : Z) (hash_seed : Z)
    (p : Params) : Node :=
  Node_ctor op operands (shape_fn tt) num_outputs hash_seed p.

(** Modelled from the spec: [InferOutputShape] of
    [ops/infer_output_shape.h], not among the files at hand.  It runs
    the lowering function on one placeholder per operand shape and
    reads the shape of the resulting program value. *)
Definition InferOutputShape (input_shapes : list Shape)
    (lower_for_shape_fn : list XlaOp -> XlaOp) : Shape :=
  ShapeOfXlaOp
    (lower_for_shape_fn
       (imap (fun i s => xla_Parameter (Z.of_nat i) s) input_shapes)).

(** [operands[i]] on a span of program values. *)
Definition span_at (operands : list XlaOp) (i : nat) : XlaOp :=
  nth i operands XlaOp_default.

(** *** prod.cpp *)

Definition LowerProd (input : XlaOp) (dimensions : list Z)
    (keep_reduced_dimensions : bool) (dtype : option ScalarType) : XlaOp :=
  let casted_input :=
    match dtype with
    | Some d => ConvertTo input (TypeOfXlaOp input) (MakeXlaPrimitiveType d)
    | None => ConvertToNumeric input (TypeOfXlaOp input)
    end in
  BuildProd casted_input dimensions keep_reduced_dimensions.

Definition Prod_NodeOutputShape (input : Value) (dimensions : list Z)
    (keep_reduced_dimensions : bool) (dtype : option ScalarType) : Shape :=
  let lower_for_shape_fn := fun operands =>
    LowerProd (span_at operands 0) dimensions keep_reduced_dimensions dtype in
  InferOutputShape [Value_shape input] lower_for_shape_fn.

Definition Prod (input : Value) (dimensions : list Z)
    (keep_reduced_dimensions : bool) (dtype : option ScalarType) : Node :=
  Node_ctor_fn aten_prod [input]
    (fun _ => Prod_NodeOutputShape input dimensions keep_reduced_dimensions
                                   dtype)
    1
    (MHash [HInts dimensions; HBool keep_reduced_dimensions;
            HInt (OptionalOr dtype (-1))])
    (ProdP dimensions keep_reduced_dimensions dtype).

(** *** leaky_relu.cpp, and upsample_nearest2d.cpp after it *)

Definition LeakyRelu (input : Value) (negative_slope : double) : Node :=
  Node_ctor aten_leaky_relu [input] (Value_shape input) 1
    (MHash [HDouble negative_slope]) (LeakyReluP negative_slope).

Definition UpsampleNearest (input : Value) (output_size : list Z) : Node :=
  Node_ctor_fn aten_upsample_nearest2d [input]
    (fun _ => GetForwardOutputShape2d (Value_shape input) output_size)
    1 (MHash [HInts output_size]) (UpsampleNearestP output_size).

(** *** softshrink.cpp *)

Definition Softshrink (input : Value) (lambda : Scalar) : Node :=
  Node_ctor aten_softshrink [input] (Value_shape input) 1
    (ScalarHash lambda) (SoftshrinkP lambda).

(** *** reflection_pad2d_backward.cpp *)

Definition ReflectionPad2dBackward_NodeOutputShape (grad_output input : Value)
    (padding : list Z) : Shape :=
  let lower_for_shape_fn := fun operands =>
    BuildReflectionPad2dBackward (span_at operands 0) (span_at operands 1)
                                 padding in
  InferOutputShape [Value_shape grad_output; Value_shape input]
                   lower_for_shape_fn.

Definition ReflectionPad2dBackward (grad_output input : Value)
    (padding : list Z) : Node :=
  Node_ctor_fn aten_reflection_pad2d_backward [grad_output; input]
    (fun _ => ReflectionPad2dBackward_NodeOutputShape grad_output input padding)
    1 (MHash [HInts padding]) (ReflectionPad2dBackwardP padding).

(** *** log_softmax_backward.cpp *)

Definition LogSoftmaxBackward (grad_output output : Value) (dim : Z) : Node :=
  Node_ctor aten_log_softmax_backward_data [grad_output; output]
    (Value_shape grad_output) 1 (MHash [HInt dim]) (LogSoftmaxBackwardP dim).

(** *** unselect.cpp *)

Definition Unselect (target source : Value) (dim start end_ stride : Z)
  : Node :=
  Node_ctor xla_unselect [target; source] (Value_shape target) 1
    (MHash [HInt dim; HInt start; HInt end_; HInt stride])
    (UnselectP dim start end_ stride).

(** *** expand.cpp *)

Definition Expand_NodeOutputShape (input : Value) (size : list Z) : Shape :=
  let lower_for_shape_fn := fun operands =>
    BuildExpand (span_at operands 0) size in
  InferOutputShape [Value_shape input] lower_for_shape_fn.

Definition Expand (input : Value) (size : list Z) : Node :=
  Node_ctor_fn aten_expand [input]
    (fun _ => Expand_NodeOutputShape input size)
    1 (MHash [HInts size]) (ExpandP size).

(** *** hardtanh_backward.cpp *)

Definition HardtanhBackward (grad_output input : Value)
    (min_val max_val : Scalar) : Node :=
  Node_ctor aten_hardtanh_backward [grad_output; input]
    (Value_shape grad_output) 1
    (MHash [HHash (ScalarHash min_val); HHash (ScalarHash max_val)])
    (HardtanhBackwardP min_val max_val).

(** *** generic.cpp: the two constructors that take operands *)

Definition Generic (op : OpKind) (operands : OpList) (shape : Shape)
    (lower_fn : LowerFn) (num_outputs : Z) (hash_seed : Z) : Node :=
  Node_ctor op operands shape num_outputs hash_seed
            (GenericP lower_fn hash_seed).

Definition Generic_fn (op : OpKind) (operands : OpList)
    (shape_fn : unit -> Shape) (lower_fn : LowerFn) (num_outputs : Z)
    (hash_seed : Z) : Node :=
  Node_ctor_fn op operands shape_fn num_outputs hash_seed
               (GenericP lower_fn hash_seed).

(** *** Clone

    The virtual [Clone(OpList operands)] of the classes above.
    [operands.at(i)] throws [std::out_of_range] when the list has no
    position [i]; that is the [None] here. *)
Definition Clone (n : Node) (operands : OpList) : option Node :=
  match params n with
  | ProdP dimensions keep dtype =>
      x ← operands !! 0; Some (Prod x dimensions keep dtype)
  | LeakyReluP negative_slope =>
      x ← operands !! 0; Some (LeakyRelu x negative_slope)
  | UpsampleNearestP output_size =>
      x ← operands !! 0; Some (UpsampleNearest x output_size)
  | SoftshrinkP lambda =>
      x ← operands !! 0; Some (Softshrink x lambda)
  | ReflectionPad2dBackwardP padding =>
      g ← operands !! 0; x ← operands !! 1;
      Some (ReflectionPad2dBackward g x padding)
  | LogSoftmaxBackwardP dim =>
      g ← operands !! 0; x ← operands !! 1;
      Some (LogSoftmaxBackward g x dim)
  | UnselectP dim start end_ stride =>
      t ← operands !! 0; s ← operands !! 1;
      Some (Unselect t s dim start end_ stride)
  | ExpandP size =>
      x ← operands !! 0; Some (Expand x size)
  | HardtanhBackwardP min_val max_val =>
      g ← operands !! 0; x ← operands !! 1;
      Some (HardtanhBackward g x min_val max_val)
  | GenericP lower_fn hash_seed =>
      Some (Generic (op n) operands (shape n) lower_fn (num_outputs n)
                    hash_seed)
  end.

(** *** Lower

    [loctx->GetOutputOp(v)] gives the program value an operand was
    lowered to; [ReturnOp] makes the one-element result vector.
    [operand(i)] is [operands_.at(i)]. *)
Definition LoweringContext : Type := Value -> XlaOp.





(** The nodes that the constructors above make. *)
Inductive constructed : Node -> Prop :=
| constructed_Prod input dimensions keep dtype :
    constructed (Prod input dimensions keep dtype)
| constructed_LeakyRelu input negative_slope :
    constructed (LeakyRelu input negative_slope)
| constructed_UpsampleNearest input output_size :
    constructed (UpsampleNearest input output_size)
| constructed_Softshrink input lambda :
    constructed (Softshrink input lambda)
| constructed_ReflectionPad2dBackward grad_output input padding :
    constructed (ReflectionPad2dBackward grad_output input padding)
| constructed_LogSoftmaxBackward grad_output output dim :
    constructed (LogSoftmaxBackward grad_output output dim)
| constructed_Unselect target source dim start end_ stride :
    constructed (Unselect target source dim start end_ stride)
| constructed_Expand input size :
    constructed (Expand input size)
| constructed_HardtanhBackward grad_output input min_val max_val :
    constructed (HardtanhBackward grad_output input min_val max_val)
| constructed_Generic op operands shape lower_fn num_outputs hash_seed :
    constructed (Generic op operands shape lower_fn num_outputs hash_seed).

End Nodes.

(** *** Two small instances, to run the definitions on *)

(** A hash in the style of the usual combiners. *)
Definition sample_combine (a b : Z) : Z := ((a * 31 + b) mod size_t_modulus)%Z.

Definition sample_arg_hash (a : HashArg) : Z :=
  match a with
  | HInt v => v
  | HBool b => if b then 1 else 0
  | HInts l => foldl sample_combine 7%Z l
  | HDouble d => d
  | HHash h => h
  end.

Definition sample_scalar_hash (s : Scalar) : Z :=
  match s with
  | ScalarDouble bits => bits
  | ScalarInt v => v
  end.

Definition sample_hashing : Hashing :=
  {| HashCombine := sample_combine;
     MHash := fun l => foldl sample_combine 17%Z (sample_arg_hash <$> l);
     ScalarHash := sample_scalar_hash;
     OpKind_hash := fun k => Z.of_nat (String.length k) |}.

Definition set_dimensions (s : Shape) (d : list Z) : Shape :=
  match s with
  | ArrayShape t _ => ArrayShape t d
  | s => s
  end.

Definition shape_dimensions (s : Shape) : list Z :=
  match s with
  | ArrayShape _ d => d
  | _ => []
  end.

(** A builder that keeps of each program value its shape only.  A
    reduction, an expansion and the padding gradient give the shapes
    one expects; its resize gives the output shape it is asked for. *)
Definition shape_only_backend : Backend :=
  {| XlaOp := Shape;
     XlaOp_default := TupleShape [];
     ShapeOfXlaOp := fun x => x;
     TypeOfXlaOp := fun x => match x with ArrayShape t _ => t | _ => 0%Z end;
     xla_Parameter := fun _ s => s;
     MakeXlaPrimitiveType := fun t => t;
     ConvertTo := fun x _ to => match x with
                                | ArrayShape _ d => ArrayShape to d
                                | x => x
                                end;
     ConvertToNumeric := fun x _ => x;
     BuildProd := fun x dimensions keep =>
       set_dimensions x
         (if keep then (fun _ => 1%Z) <$> shape_dimensions x else []);
     BuildExpand := fun x size => set_dimensions x size;
     BuildReflectionPad2dBackward := fun _ x _ => x;
     GetForwardOutputShape2d := fun s output_size =>
       set_dimensions s (take 2 (shape_dimensions s) ++ output_size);
     LowerForward2d := fun _ _ output_shape _ _ => output_shape |}.

(** The lowering context of that builder in which each operand was
    lowered to a value of its own shape. *)
Definition shape_only_loctx : @LoweringContext shape_only_backend :=
  fun v => Value_shape v.

(** An operand to build on: a [Generic] node without operands, of
    element type 11 (F32) and the given dimensions. *)
Definition sample_input `{H : Hashing} `{B : Backend} (dimensions : list Z)
    (hash_seed : Z) : Value :=
  (Generic "xla::device_data" [] (ArrayShape 11%Z dimensions) 0 1%Z hash_seed,
   0%Z).

End IR.

(* ===================================================================== *)
(** * Mesh rendezvous *)
(* ===================================================================== *)

Module Mesh.

(** Modelled from the spec: the state of the rendezvous service, whose
    implementation is not among the files at hand.  It holds the number
    [P] of workers it expects and the payload registered under each
    [(ordinal, tag)]. *)
Record MeshService := mkService {
  num_workers : nat;
  entries : gmap (Z * string) string
}.

Definition empty (P : nat) : MeshService := mkService P ∅.

(** The ordinals [0 .. P-1]. *)
Definition ordinals (P : nat) : list Z := Z.of_nat <$> seq 0 P.

(** Modelled from the spec: the registration half of
    [MeshClient::Rendezvous(ordinal, tag, payload)], of which only the
    declaration is among the files at hand.  The payload is stored under
    [(ordinal, tag)]; an ordinal outside [0 .. P-1] or a second
    registration of the same pair is a usage error. *)
Definition Register (ordinal : Z) (tag payload : string) (s : MeshService)
  : option MeshService :=
  if decide ((0 <= ordinal < Z.of_nat (num_workers s))%Z
             /\ entries s !! (ordinal, tag) = None)
  then Some (mkService (num_workers s)
                       (<[(ordinal, tag) := payload]> (entries s)))
  else None.

(** Modelled from the spec: the payloads registered for [tag], in the
    order of the ordinals, once every one of the [P] ordinals has
    registered; [None] before that. *)
Definition collected (s : MeshService) (tag : string) : option (list string) :=
  mapM (fun o => entries s !! (o, tag)) (ordinals (num_workers s)).

(** Modelled from the spec: the blocking half of [Rendezvous].  What
    the pending call of worker [ordinal] for [tag] returns in the state
    [s] of the service; [None] while the call is blocked (or was never
    made). *)
Definition Rendezvous_reply (s : MeshService) (ordinal : Z) (tag : string)
  : option (list string) :=
  match entries s !! (ordinal, tag) with
  | Some _ => collected s tag
  | None => None
  end.

(** Modelled from the spec: the service after the registrations
    [calls], in the order in which they arrive; [None] after a usage
    error. *)
Fixpoint serve (calls : list (Z * string * string)) (s : MeshService)
  : option MeshService :=
  match calls with
  | [] => Some s
  | (ordinal, tag, payload) :: calls' =>
      s' ← Register ordinal tag payload s; serve calls' s'
  end.

End Mesh.

(* ===================================================================== *)
(** * Tensor equality *)
(* ===================================================================== *)

Module TensorEq.

(** The operations of [_Raw] that the comparison operators dispatch. *)
Inductive RawOp :=
| RawEqual       (* .== *)
| RawNotEqual    (* .!= *)
| RawAll         (* all() *)
| RawAny.        (* any() *)

Section Scalars.
Context {Scalar : Type}.

(** The element-wise comparisons of two scalars behind [.==] and [.!=];
    they are defined outside the file at hand. *)
Context (scalar_eq scalar_ne : Scalar -> Scalar -> bool).

(** A tensor, by its shape and its scalars in row-major order. *)
Record Tensor := mkTensor {
  shape : list Z;
  scalars : list Scalar
}.

(** [lhs .== rhs] and [lhs .!= rhs] on tensors of one shape. *)
Definition elementwise_eq (lhs rhs : Tensor) : list bool :=
  zip_with scalar_eq (scalars lhs) (scalars rhs).

Definition elementwise_ne (lhs rhs : Tensor) : list bool :=
  zip_with scalar_ne (scalars lhs) (scalars rhs).

(** [all()] and [any()] of a tensor of booleans. *)
Definition all (l : list bool) : bool := forallb id l.
Definition any (l : list bool) : bool := existsb id l.

(** [static func == (lhs: Tensor, rhs: Tensor) -> Bool], with the raw
    operations it dispatched. *)
Definition Tensor_eq (lhs rhs : Tensor) : bool * list RawOp :=
  if decide (shape lhs = shape rhs)
  then (all (elementwise_eq lhs rhs), [RawEqual; RawAll])
  else (false, []).

(** [static func != (lhs: Tensor, rhs: Tensor) -> Bool]. *)
Definition Tensor_ne (lhs rhs : Tensor) : bool * list RawOp :=
  if decide (shape lhs = shape rhs)
  then (any (elementwise_ne lhs rhs), [RawNotEqual; RawAny])
  else (true, []).

End Scalars.

Arguments Tensor : clear implicits.

End TensorEq.

(* ===================================================================== *)
(** * Lowering of the remaining node classes *)
(* ===================================================================== *)

Module IRLower.
Import IR.

(** The builder functions of [elementwise.h], [softmax_builder.h] and
    [data_ops.h] that the [Lower] methods of the element-wise and
    two-operand classes call; they are defined outside the files at
    hand. *)
Class Elementwise (B : Backend) := {
  BuildLeakyRelu : XlaOp -> double -> XlaOp;
  BuildSoftshrink : XlaOp -> Scalar -> XlaOp;
  BuildLogSoftmaxGrad : XlaOp -> XlaOp -> Z -> XlaOp;
  BuildUnselect : XlaOp -> XlaOp -> Z -> Z -> Z -> Z -> XlaOp;
  BuildHardtanhBackward : XlaOp -> XlaOp -> Scalar -> Scalar -> XlaOp
}.

Section Lowering.
Context `{H : Hashing} `{B : Backend} `{E : !Elementwise B}.

(** A call of the [std::function] a [Generic] node holds. *)
Context (invoke : LowerFn -> Node -> LoweringContext -> option (list XlaOp)).

(** The virtual [Lower(LoweringContext* loctx)] of the classes of
    [IR]: each reads its operands with [operand(i)], asks the context
    for the program values they were lowered to, and returns the one
    value it builds; [Generic::Lower] calls the function it holds. *)
Definition Lower (n : Node) (loctx : LoweringContext) : option (list XlaOp) :=
  match params n with
  | ProdP dimensions keep dtype =>
      v ← operands n !! 0;
      Some [LowerProd (loctx v) dimensions keep dtype]
  | LeakyReluP negative_slope =>
      v ← operands n !! 0;
      Some [BuildLeakyRelu (loctx v) negative_slope]
  | UpsampleNearestP _ =>
      v ← operands n !! 0;
      Some [LowerForward2d "ResizeNearest" (loctx v) (shape n) false false]
  | SoftshrinkP lambda =>
      v ← operands n !! 0;
      Some [BuildSoftshrink (loctx v) lambda]
  | ReflectionPad2dBackwardP padding =>
      g ← operands n !! 0; x ← operands n !! 1;
      Some [BuildReflectionPad2dBackward (loctx g) (loctx x) padding]
  | LogSoftmaxBackwardP dim =>
      g ← operands n !! 0; o ← operands n !! 1;
      Some [BuildLogSoftmaxGrad (loctx g) (loctx o) dim]
  | UnselectP dim start end_ stride =>
      t ← operands n !! 0; s ← operands n !! 1;
      Some [BuildUnselect (loctx t) (loctx s) dim start end_ stride]
  | ExpandP size =>
      v ← operands n !! 0;
      Some [BuildExpand (loctx v) size]
  | HardtanhBackwardP min_val max_val =>
      g ← operands n !! 0; x ← operands n !! 1;
      Some [BuildHardtanhBackward (loctx g) (loctx x) min_val max_val]
  | GenericP lower_fn _ => invoke lower_fn n loctx
  end.

End Lowering.

(** Element-wise builders for [shape_only_backend]: each keeps the
    shape of its first operand. *)
Definition shape_only_elementwise : Elementwise shape_only_backend :=
  {| BuildLeakyRelu := fun x _ => x;
     BuildSoftshrink := fun x _ => x;
     BuildLogSoftmaxGrad := fun g _ _ => g;
     BuildUnselect := fun t _ _ _ _ _ => t;
     BuildHardtanhBackward := fun g _ _ _ => g |}.

(** A [Generic] callback table with no entry. *)
Definition no_callbacks `{B : Backend} (_ : LowerFn) (_ : Node)
    (_ : LoweringContext) : option (list XlaOp) := None.

End IRLower.

(* ===================================================================== *)
(** * Scalar access on tensors *)
(* ===================================================================== *)

Module TensorOps.
Import TensorEq.

(** The result of code that may stop at a failed [precondition] or an
    index out of range. *)
Inductive Trapping (A : Type) :=
| Ok (a : A)
| Trap.
Arguments Ok {A} a.
Arguments Trap {A}.

Section Scalars.
Context {Scalar : Type}.

(** [TensorShape.contiguousSize], defined outside the file at hand. *)
Context (contiguousSize : list Z -> Z).

(** The number of scalars matches the shape. *)
Definition well_formed (t : Tensor Scalar) : Prop :=
  contiguousSize (shape t) = Z.of_nat (length (scalars t)).

(** [var rank: Int]. *)
Definition rank (t : Tensor Scalar) : nat := length (shape t).

(** [var isScalar: Bool]. *)
Definition isScalar (t : Tensor Scalar) : bool := bool_decide (rank t = 0).

(** [scalars[0]]. *)
Definition first_scalar (t : Tensor Scalar) : Trapping Scalar :=
  match scalars t !! 0 with
  | Some x => Ok x
  | None => Trap
  end.

(** [var scalar: Scalar?], which is also what
    [TensorFlowScalar.init?(_ tensor:)] returns. *)
Definition scalar (t : Tensor Scalar) : Trapping (option Scalar) :=
  if isScalar t
  then match first_scalar t with
       | Ok x => Ok (Some x)
       | Trap => Trap
       end
  else Ok None.

(** [func scalarized() -> Scalar]. *)
Definition scalarized (t : Tensor Scalar) : Trapping Scalar :=
  if decide (contiguousSize (shape t) = 1%Z)
  then first_scalar t
  else Trap.

End Scalars.

(** The product of the dimensions, the usual contiguous size. *)
Definition product (dimensions : list Z) : Z := foldr Z.mul 1%Z dimensions.

End TensorOps.

(* ===================================================================== *)
(** * Facts about MultiWait *)
(* ===================================================================== *)

Module MultiWaitFacts.
Import MultiWait.

Section BarrierFacts.
Context {Exn : Type}.
Implicit Types (m : t Exn) (s : system Exn) (p q : pc Exn).
Implicit Types (l : list (pc Exn)) (tr : list (event Exn)).
Implicit Types (works : list (Outcome Exn)).
Local Open Scope Z_scope.

(** *** Counting threads *)

Lemma tally_nonneg (f : pc Exn -> bool) l : 0 <= tally f l.
Proof. induction l as [|p l IH]; simpl; [lia|]. destruct (f p); lia. Qed.

Lemma tally_insert (f : pc Exn -> bool) l (i : nat) p q :
  l !! i = Some p ->
  tally f (<[i := q]> l)
  = tally f l - (if f p then 1 else 0) + (if f q then 1 else 0).
Proof.
  revert i; induction l as [|x l IH]; intros [|i] H; simplify_eq/=.
  - lia.
  - rewrite (IH i H). lia.
Qed.

Lemma tally_fmap (f : pc Exn -> bool) (g : pc Exn -> pc Exn) l :
  (forall p, f (g p) = f p) -> tally f (g <$> l) = tally f l.
Proof.
  intros Hg. induction l as [|x l IH]; [done|].
  rewrite fmap_cons. cbn [tally]. by rewrite Hg, IH.
Qed.

Lemma tally_none (f : pc Exn -> bool) l :
  (forall p, p ∈ l -> f p = false) -> tally f l = 0.
Proof.
  induction l as [|x l IH]; intros H; simpl; [done|].
  rewrite (H x) by left. rewrite IH; [done|]. intros p Hp. apply H. by right.
Qed.

Lemma tally_all (f : pc Exn -> bool) l :
  (forall p, p ∈ l -> f p = true) -> tally f l = Z.of_nat (length l).
Proof.
  induction l as [|x l IH]; intros H; simpl length; simpl tally; [done|].
  rewrite (H x) by left. rewrite IH; [lia|]. intros p Hp. apply H. by right.
Qed.

Lemma tally_app (f : pc Exn -> bool) l l' :
  tally f (l ++ l') = tally f l + tally f l'.
Proof. induction l as [|x l IH]; simpl; [done|]. rewrite IH. lia. Qed.

Lemma tally_zero (f : pc Exn -> bool) l (i : nat) p :
  tally f l = 0 -> l !! i = Some p -> f p = false.
Proof.
  revert i; induction l as [|x l IH]; intros [|i] H0 H; simplify_eq/=.
  - pose proof (tally_nonneg f l). destruct (f p); [lia|done].
  - apply (IH i); [|done].
    pose proof (tally_nonneg f l). destruct (f x); lia.
Qed.

Lemma tally_pos (f : pc Exn -> bool) l (i : nat) p :
  l !! i = Some p -> f p = true -> 0 < tally f l.
Proof.
  intros H Hf. pose proof (tally_nonneg f l) as Hn.
  destruct (decide (tally f l = 0)) as [Hz|]; [|lia].
  rewrite (tally_zero f l i p Hz H) in Hf. done.
Qed.

Lemma tally_wake_asleep l : tally asleep (wake <$> l) = 0.
Proof.
  apply tally_none. intros p (q & -> & _)%list_elem_of_fmap. by destruct q.
Qed.

Lemma exits_after_change (n : Z) (r r' : WaitResult Exn) tr :
  dones tr < n -> exits_after n r tr -> exits_after n r' tr.
Proof.
  induction tr as [|ev tr IH]; simpl; [done|].
  destruct ev; simpl; try (intros; apply IH; [lia|done]).
  intros Hlt (Hd & _ & _). lia.
Qed.

Lemma dones_nonneg tr : 0 <= dones tr.
Proof. induction tr as [|[] tr IH]; simpl; lia. Qed.

Lemma start_inv (works : list (Outcome Exn)) (waiters : nat) :
  generation_inv works (start works waiters).
Proof.
  assert (Hno : forall (f : pc Exn -> bool),
             f WCheck = false -> (forall w, f (CRun w) = false) ->
             tally f ((CRun <$> works) ++ replicate waiters WCheck) = 0).
  { intros f H1 H2. apply tally_none.
    intros p [(w & -> & _)%list_elem_of_fmap | ->%elem_of_replicate_inv]%elem_of_app; auto. }
  assert (Hlook : forall i p,
             ((CRun <$> works) ++ replicate waiters WCheck) !! i = Some p ->
             (exists w, p = CRun w /\ works !! i = Some w) \/ p = WCheck).
  { intros i p. intros [H | [_ H]]%lookup_app_Some.
    - rewrite list_lookup_fmap in H. destruct (works !! i) as [w|]; simplify_eq/=. eauto.
    - apply lookup_replicate in H as [-> _]. by right. }
  split; simpl; try done.
  - symmetry. by apply (Hno past_done).
  - rewrite (Hno past_done) by done. rewrite tally_app.
    rewrite (tally_all before_done (CRun <$> works)).
    + rewrite length_fmap. rewrite tally_none; [lia|].
      by intros p ->%elem_of_replicate_inv.
    + by intros p (w & -> & _)%list_elem_of_fmap.
  - intros _. left. by apply (Hno asleep).
  - intros Hpos. rewrite (Hno notifying) by done. unfold reached. simpl.
    destruct (Z.leb_spec (Z.of_nat (length works)) 0); lia.
  - intros i r [(w & ? & _)|?]%Hlook; done.
  - intros i w [(w' & ? & ?)|?]%Hlook; by simplify_eq.
  - intros i e [(w' & ? & ?)|?]%Hlook; by simplify_eq.
  - intros e H. by apply elem_of_nil in H.
  - intros i e H. left. rewrite lookup_app_l.
    + by rewrite list_lookup_fmap, H.
    + rewrite length_fmap. by eapply lookup_lt_Some.
Qed.

Lemma reached_capture (e : Exn) m : reached (capture e m) = reached m.
Proof. done. Qed.

Lemma deliver_Done m : deliver (fst (Done m)) = deliver m.
Proof. done. Qed.

Lemma past_done_wake p : past_done (wake p) = past_done p.
Proof. by destruct p. Qed.
Lemma before_done_wake p : before_done (wake p) = before_done p.
Proof. by destruct p. Qed.
Lemma notifying_wake p : notifying (wake p) = notifying p.
Proof. by destruct p. Qed.

Lemma lookup_wake l (j : nat) q :
  (wake <$> l) !! j = Some q -> q <> WCheck -> l !! j = Some q.
Proof.
  rewrite list_lookup_fmap. destruct (l !! j) as [p|]; [|done].
  destruct p; simpl; congruence.
Qed.

Lemma lookup_wake_keep l (j : nat) q :
  l !! j = Some q -> asleep q = false -> (wake <$> l) !! j = Some q.
Proof. intros H Hq. rewrite list_lookup_fmap, H. by destruct q. Qed.

(** While a completer has still to enter [Done], the barrier is short of
    its count, and the next increment does not wrap. *)
Lemma inv_not_reached works s (i : nat) p :
  generation_inv works s ->
  threads s !! i = Some p -> before_done p = true ->
  completed_count_ (mw s) < count_ (mw s) /\ reached (mw s) = false.
Proof.
  intros [Hc Hcomp Htot _ _ _ _ _ _ _ _ _ _] Hi Hp.
  pose proof (tally_pos before_done _ _ _ Hi Hp).
  assert (completed_count_ (mw s) < count_ (mw s)) by lia.
  split; [done|]. unfold reached. by apply Z.leb_gt.
Qed.

(** A step puts a new place at index [i] and leaves the other threads
    where they were: facts about a place found in the new list follow
    from the facts about the old list, the new place being of another
    form. *)
Local Ltac elsewhere :=
  let j := fresh "j" in
  let x := fresh "x" in
  let Hj := fresh "Hj" in
  intros j x [(-> & ? & ?)|(? & Hj)]%list_lookup_insert_Some; [done|eauto].

Local Ltac raised_elsewhere Hraised i :=
  let j := fresh "j" in
  let e := fresh "e" in
  let Hj := fresh "Hj" in
  intros j e Hj; destruct (decide (j = i)) as [->|?];
  [ destruct (Hraised _ _ Hj) as [?|[?|?]]; simplify_eq; auto
  | rewrite !list_lookup_insert_ne by done; eauto ].

Lemma step_inv works s (i : nat) :
  Z.of_nat (length works) < size_t_modulus ->
  generation_inv works s -> generation_inv works (step i s).
Proof.
  intros Hbound Hinv. unfold step.
  destruct (threads s !! i) as [p|] eqn:Hi; [|done].
  pose proof Hinv as [Hc Hcomp Htot Hd Hex Hsl Hnt Hexit Htr Hrun Hcatch Hcap Hraised].
  pose proof (lookup_lt_Some _ _ _ Hi) as Hlen.
  destruct p as [[|e]|e| | | | | |r]; try done.
  - (* func() returned *)
    split; simpl; rewrite ?(tally_insert _ _ _ _ _ Hi); simpl; try done; try lia.
    + intros Hr. destruct (Hsl Hr); lia.
    + elsewhere.
    + elsewhere.
    + elsewhere.
    + raised_elsewhere Hraised i.
  - (* func() threw *)
    split; simpl; rewrite ?(tally_insert _ _ _ _ _ Hi); simpl; try done; try lia.
    + intros Hr. destruct (Hsl Hr); lia.
    + elsewhere.
    + elsewhere.
    + intros j e' [(-> & ? & ?)|(? & Hj)]%list_lookup_insert_Some; [|eauto].
      simplify_eq. eauto.
    + intros j e' Hj. destruct (decide (j = i)) as [->|Hne].
      * rewrite (Hrun _ _ Hi) in Hj. simplify_eq.
        right; left. by apply list_lookup_insert_eq.
      * rewrite !list_lookup_insert_ne by done. eauto.
  - (* the catch block *)
    destruct (inv_not_reached _ _ _ _ Hinv Hi eq_refl) as [Hlt Hnr].
    split; simpl; rewrite ?(tally_insert _ _ _ _ _ Hi); simpl; try done; try lia.
    + rewrite reached_capture, Hnr. done.
    + rewrite reached_capture. intros Hp. specialize (Hnt Hp). lia.
    + intros j r [(-> & ? & ?)|(? & Hj)]%list_lookup_insert_Some; [done|].
      destruct (Hexit _ _ Hj). congruence.
    + apply (exits_after_change _ (deliver (mw s))); [lia|done].
    + elsewhere.
    + elsewhere.
    + intros e' [->|?]%elem_of_cons; [|eauto].
      eapply list_elem_of_lookup_2. eauto.
    + intros j e' Hj. destruct (decide (j = i)) as [->|Hne].
      * rewrite (Hcatch _ _ Hi) in Hj. simplify_eq. right; right. left.
      * rewrite !list_lookup_insert_ne by done.
        destruct (Hraised _ _ Hj) as [?|[?|?]]; auto. right; right. by right.
  - (* the critical section of Done *)
    destruct (inv_not_reached _ _ _ _ Hinv Hi eq_refl) as [Hlt Hnr].
    assert (Hsucc : size_t_succ (completed_count_ (mw s)) = completed_count_ (mw s) + 1).
    { unfold size_t_succ. apply Z.mod_small.
      pose proof (tally_nonneg past_done (threads s)). lia. }
    unfold Done. rewrite Hsucc.
    set (m' := {| count_ := count_ (mw s);
                  completed_count_ := completed_count_ (mw s) + 1;
                  exptr_ := exptr_ (mw s) |}).
    assert (Hpd : past_done (if reached m' then CNotify else CFinished : pc Exn) = true)
      by (by destruct (reached m')).
    assert (Hbd : before_done (if reached m' then CNotify else CFinished : pc Exn) = false)
      by (by destruct (reached m')).
    split; simpl; rewrite ?(tally_insert _ _ _ _ _ Hi), ?Hpd, ?Hbd; simpl; try done; try lia.
    + intros ->. simpl. right. pose proof (tally_nonneg notifying (threads s)). lia.
    + intros Hp. specialize (Hnt Hp). rewrite Hnr in Hnt.
      destruct (reached m'); simpl; lia.
    + intros j r [(-> & ? & ?)|(? & Hj)]%list_lookup_insert_Some.
      * by destruct (reached m').
      * destruct (Hexit _ _ Hj). congruence.
    + intros j w [(-> & ? & ?)|(? & Hj)]%list_lookup_insert_Some; [|eauto].
      by destruct (reached m').
    + intros j e [(-> & ? & ?)|(? & Hj)]%list_lookup_insert_Some; [|eauto].
      by destruct (reached m').
    + raised_elsewhere Hraised i.
  - (* notify_all *)
    assert (Hi' : (wake <$> threads s) !! i = Some CNotify)
      by (by rewrite list_lookup_fmap, Hi).
    split; simpl;
      rewrite ?(tally_insert _ _ _ _ _ Hi'), ?tally_wake_asleep,
        ?(tally_fmap past_done), ?(tally_fmap before_done),
        ?(tally_fmap notifying)
        by (apply past_done_wake || apply before_done_wake || apply notifying_wake);
      simpl; try done; try lia.
    + intros j r [(-> & ? & ?)|(? & Hj)]%list_lookup_insert_Some; [done|].
      apply lookup_wake in Hj; [eauto|done].
    + intros j w [(-> & ? & ?)|(? & Hj)]%list_lookup_insert_Some; [done|].
      apply lookup_wake in Hj; [eauto|done].
    + intros j e [(-> & ? & ?)|(? & Hj)]%list_lookup_insert_Some; [done|].
      apply lookup_wake in Hj; [eauto|done].
    + intros j e Hj. destruct (decide (j = i)) as [->|Hne].
      * destruct (Hraised _ _ Hj) as [?|[?|?]]; simplify_eq; auto.
      * rewrite !list_lookup_insert_ne by done.
        destruct (Hraised _ _ Hj) as [H|[H|?]]; auto;
          apply lookup_wake_keep in H; auto.
  - (* Wait: the predicate under the lock *)
    destruct (reached (mw s)) eqn:Hr.
    + assert (completed_count_ (mw s) = Z.of_nat (length works)).
      { unfold reached in Hr. apply Z.leb_le in Hr.
        pose proof (tally_nonneg before_done (threads s)). lia. }
      split; simpl; rewrite ?(tally_insert _ _ _ _ _ Hi), ?Hr; simpl; try done; try lia.
      * intros j r [(-> & ? & ?)|(? & Hj)]%list_lookup_insert_Some;
          [by simplify_eq|eauto].
      * split_and!; [lia|done|done].
      * elsewhere.
      * elsewhere.
      * raised_elsewhere Hraised i.
    + split; simpl; rewrite ?(tally_insert _ _ _ _ _ Hi), ?Hr; simpl; try done; try lia.
      * elsewhere.
      * elsewhere.
      * elsewhere.
      * raised_elsewhere Hraised i.
Qed.

Lemma exec_inv works s (a : action) :
  Z.of_nat (length works) < size_t_modulus ->
  generation_inv works s -> generation_inv works (exec a s).
Proof.
  intros Hbound Hinv. destruct a as [i|i]; simpl; [by apply step_inv|].
  destruct (threads s !! i) as [p|] eqn:Hi; [|done].
  destruct p; try done.
  pose proof Hinv as [Hc Hcomp Htot Hd Hex Hsl Hnt Hexit Htr Hrun Hcatch Hcap Hraised].
  pose proof (tally_pos asleep _ _ _ Hi eq_refl) as Hpos.
  split; simpl; rewrite ?(tally_insert _ _ _ _ _ Hi); simpl; try done; try lia.
  - intros Hr. destruct (Hsl Hr); lia.
  - elsewhere.
  - elsewhere.
  - elsewhere.
  - raised_elsewhere Hraised i.
Qed.

Lemma run_inv works s (sched : list action) :
  Z.of_nat (length works) < size_t_modulus ->
  generation_inv works s -> generation_inv works (run sched s).
Proof.
  intros Hbound. revert s. induction sched as [|a sched IH]; intros s Hinv; [done|].
  apply IH. by apply exec_inv.
Qed.

Lemma reachable_inv works (waiters : nat) (sched : list action) :
  Z.of_nat (length works) < size_t_modulus ->
  generation_inv works (run sched (start works waiters)).
Proof. intros Hbound. apply run_inv; [done|]. apply start_inv. Qed.

Local Close Scope Z_scope.

(** *** What one action does to one thread *)

Lemma step_lookup_self s (j : nat) p :
  threads s !! j = Some p ->
  threads (step j s) !! j = Some (next_pc (mw s) p).
Proof.
  intros Hj. pose proof (lookup_lt_Some _ _ _ Hj) as Hlen.
  unfold step. rewrite Hj.
  destruct p as [[|e]|e| | | | | |r]; simpl; try done;
    try (by apply list_lookup_insert_eq).
  - apply list_lookup_insert_eq. by rewrite length_fmap.
  - destruct (reached (mw s)); simpl; by apply list_lookup_insert_eq.
Qed.

Lemma exec_lookup (a : action) s (j : nat) p :
  threads s !! j = Some p ->
  exists p', threads (exec a s) !! j = Some p'
             /\ (p' = p \/ p' = wake p
                 \/ (a = Run j /\ p' = next_pc (mw s) p)).
Proof.
  intros Hj. destruct a as [i|i]; simpl.
  - destruct (decide (i = j)) as [->|Hne].
    { exists (next_pc (mw s) p). split; [by apply step_lookup_self|auto]. }
    unfold step. destruct (threads s !! i) as [q|] eqn:Hi; [|eauto].
    destruct q as [[|e]|e| | | | | |r]; simpl;
      rewrite ?list_lookup_insert_ne by done; eauto.
    + exists (wake p). rewrite list_lookup_fmap, Hj. auto.
    + destruct (reached (mw s)); simpl;
        rewrite list_lookup_insert_ne by done; eauto.
  - destruct (threads s !! i) as [q|] eqn:Hi; [|eauto].
    destruct q; simpl; eauto.
    destruct (decide (i = j)) as [->|Hne].
    + simplify_eq. exists WCheck. split; [|auto].
      apply list_lookup_insert_eq. by eapply lookup_lt_Some.
    + rewrite list_lookup_insert_ne by done. eauto.
Qed.

Lemma steps_left_wake p : steps_left (wake p) = steps_left p.
Proof. by destruct p. Qed.

Lemma steps_left_next m p : steps_left (next_pc m p) <= pred (steps_left p).
Proof.
  destruct p as [[|e]|e| | | | | |r]; simpl; try lia.
  - destruct (reached _); simpl; lia.
  - destruct (reached m); simpl; lia.
Qed.

Lemma steps_left_exec (a : action) s (j : nat) p :
  threads s !! j = Some p ->
  exists p', threads (exec a s) !! j = Some p' /\ steps_left p' <= steps_left p.
Proof.
  intros Hj. destruct (exec_lookup a s j p Hj) as (p' & Hp' & Hcase).
  exists p'. split; [done|].
  destruct Hcase as [->|[->|[_ ->]]]; rewrite ?steps_left_wake; try lia.
  pose proof (steps_left_next (mw s) p). lia.
Qed.

(** *** Schedules *)

Lemma run_app (sched sched' : list action) s :
  run (sched ++ sched') s = run sched' (run sched s).
Proof. apply foldl_app. Qed.

Lemma exec_length (a : action) s :
  length (threads (exec a s)) = length (threads s).
Proof.
  destruct a as [i|i]; simpl.
  - unfold step. destruct (threads s !! i) as [q|]; [|done].
    destruct q as [[|e]|e| | | | | |r]; simpl;
      rewrite ?length_insert, ?length_fmap; try done.
    destruct (reached (mw s)); simpl; by rewrite length_insert.
  - destruct (threads s !! i) as [q|]; [|done].
    destruct q; simpl; by rewrite ?length_insert.
Qed.

Lemma run_length (sched : list action) s :
  length (threads (run sched s)) = length (threads s).
Proof.
  revert s. induction sched as [|a sched IH]; intros s; [done|].
  simpl. change (foldl _ ?x sched) with (run sched x).
  by rewrite IH, exec_length.
Qed.

(** A property of one thread that no action destroys and that a
    thread's own turns [turns j] establish holds of all threads after
    everyone had their turns. *)
Lemma run_turns (I : system Exn -> Prop) (P : nat -> system Exn -> Prop)
    (turns : nat -> list action) :
  (forall a s, I s -> I (exec a s)) ->
  (forall a s j, I s -> P j s -> P j (exec a s)) ->
  (forall s j, I s -> P j (run (turns j) s)) ->
  forall n s, I s ->
    I (run (flat_map turns (seq 0 n)) s)
    /\ forall j, j < n -> P j (run (flat_map turns (seq 0 n)) s).
Proof.
  intros HI HP Hturn.
  assert (HIrun : forall sched s, I s -> I (run sched s)).
  { induction sched as [|a sched IH]; intros s Hs; [done|]. apply IH. by apply HI. }
  assert (HPrun : forall sched s j, I s -> P j s -> P j (run sched s)).
  { induction sched as [|a sched IH]; intros s j Hs Hj; [done|].
    apply IH; [by apply HI|by apply HP]. }
  induction n as [|n IH]; intros s Hs.
  - split; [done|]. intros j Hj. lia.
  - rewrite seq_S, flat_map_app, run_app. simpl. rewrite app_nil_r.
    destruct (IH s Hs) as [HIn HPn].
    split; [by apply HIrun|].
    intros j Hj. destruct (decide (j = n)) as [->|Hne].
    + by apply Hturn.
    + apply HPrun; [done|]. apply HPn. lia.
Qed.

Lemma own_turn s (j : nat) p :
  threads s !! j = Some p ->
  exists p', threads (step j s) !! j = Some p'
             /\ steps_left p' <= pred (steps_left p).
Proof.
  intros Hj. exists (next_pc (mw s) p).
  split; [by apply step_lookup_self|apply steps_left_next].
Qed.

Lemma four_turns s (j : nat) p :
  threads s !! j = Some p ->
  exists p', threads (run [Run j; Run j; Run j; Run j] s) !! j = Some p'
             /\ steps_left p' = 0.
Proof.
  intros H0. simpl.
  destruct (own_turn _ _ _ H0) as (p1 & H1 & Hle1).
  destruct (own_turn _ _ _ H1) as (p2 & H2 & Hle2).
  destruct (own_turn _ _ _ H2) as (p3 & H3 & Hle3).
  destruct (own_turn _ _ _ H3) as (p4 & H4 & Hle4).
  exists p4. split; [done|].
  assert (steps_left p <= 4) by (destruct p as [[|?]|?| | | | | |?]; simpl; lia).
  lia.
Qed.

(** Once no completer has anything left to do, the barrier is complete
    and nobody is asleep. *)
Lemma settled_complete works s :
  generation_inv works s ->
  (forall (j : nat) p, threads s !! j = Some p -> steps_left p = 0) ->
  completed_count_ (mw s) = Z.of_nat (length works)
  /\ reached (mw s) = true
  /\ forall (j : nat), threads s !! j <> Some WSleep.
Proof.
  intros Hinv Hset.
  pose proof Hinv as [Hc Hcomp Htot Hd Hex Hsl Hnt Hexit Htr Hrun Hcatch Hcap Hraised].
  assert (Hb : tally before_done (threads s) = 0%Z).
  { apply tally_none. intros p (j & Hj)%list_elem_of_lookup_1.
    specialize (Hset j p Hj). by destruct p as [[|?]|?| | | | | |?]. }
  assert (Hn : tally notifying (threads s) = 0%Z).
  { apply tally_none. intros p (j & Hj)%list_elem_of_lookup_1.
    specialize (Hset j p Hj). by destruct p as [[|?]|?| | | | | |?]. }
  assert (Hr : reached (mw s) = true) by (unfold reached; apply Z.leb_le; lia).
  split_and!; [lia|done|].
  intros j Hj. destruct (Hsl Hr) as [Hz|?]; [|lia].
  by pose proof (tally_zero asleep _ _ _ Hz Hj).
Qed.

Lemma lookup_before (a : action) s (j : nat) p' :
  threads (exec a s) !! j = Some p' -> exists p, threads s !! j = Some p.
Proof.
  intros H%lookup_lt_Some. rewrite exec_length in H.
  by apply lookup_lt_is_Some_2 in H as [p Hp]; eauto.
Qed.

Lemma settled_exec (a : action) s :
  (forall (j : nat) p, threads s !! j = Some p -> steps_left p = 0) ->
  forall (j : nat) p, threads (exec a s) !! j = Some p -> steps_left p = 0.
Proof.
  intros Hset j p' Hp'. destruct (lookup_before _ _ _ _ Hp') as [p Hp].
  destruct (steps_left_exec a s j p Hp) as (p'' & Hp'' & Hle).
  specialize (Hset j p Hp). simplify_eq. lia.
Qed.

Lemma drain_finishes works s :
  (Z.of_nat (length works) < size_t_modulus)%Z ->
  generation_inv works s ->
  generation_inv works (run (drain (length (threads s))) s)
  /\ forall (j : nat) p,
       threads (run (drain (length (threads s))) s) !! j = Some p ->
       p = CFinished \/ exists r, p = WExit r.
Proof.
  intros Hbound Hinv. unfold drain. rewrite run_app.
  set (n := length (threads s)).
  set (s1 := run (flat_map (fun i => [Run i; Run i; Run i; Run i]) (seq 0 n)) s).
  (* every completer runs to its end *)
  destruct (run_turns (generation_inv works)
              (fun j s => forall p, threads s !! j = Some p -> steps_left p = 0)
              (fun i => [Run i; Run i; Run i; Run i])) with (n := n) (s := s)
    as [Hinv1 Hset1]; try done.
  { intros a s0 ?. by apply exec_inv. }
  { intros a s0 j _ HP p' Hp'. destruct (lookup_before _ _ _ _ Hp') as [p Hp].
    destruct (steps_left_exec a s0 j p Hp) as (p'' & Hp'' & Hle).
    specialize (HP p Hp). simplify_eq. lia. }
  { intros s0 j _ p' Hp'.
    assert (exists p, threads s0 !! j = Some p) as [p Hp].
    { apply lookup_lt_Some in Hp'. rewrite run_length in Hp'.
      by apply lookup_lt_is_Some_2 in Hp'. }
    destruct (four_turns _ _ _ Hp) as (p4 & H4 & ?). by simplify_eq. }
  fold s1 in Hinv1, Hset1.
  assert (Hn1 : length (threads s1) = n) by apply run_length.
  (* every waiter checks the predicate once more *)
  destruct (run_turns
              (fun s => generation_inv works s
                        /\ forall (j : nat) p, threads s !! j = Some p -> steps_left p = 0)
              (fun j s => forall p, threads s !! j = Some p ->
                                    p = CFinished \/ exists r, p = WExit r)
              (fun i => [Run i])) with (n := n) (s := s1)
    as [[Hinv2 _] Hfin]; try done.
  { intros a s0 [? ?]. split; [by apply exec_inv|by apply settled_exec]. }
  { intros a s0 j _ HP p' Hp'. destruct (lookup_before _ _ _ _ Hp') as [p Hp].
    destruct (exec_lookup a s0 j p Hp) as (p'' & Hp'' & Hcase).
    simplify_eq. destruct (HP p Hp) as [->|[r ->]];
      destruct Hcase as [->|[->|[_ ->]]]; simpl; eauto. }
  { intros s0 j [Hinv0 Hset0] p' Hp'.
    change (run [Run j] s0) with (exec (Run j) s0) in Hp'.
    destruct (lookup_before _ _ _ _ Hp') as [p Hp]. simpl in Hp'.
    rewrite (step_lookup_self _ _ _ Hp) in Hp'. simplify_eq.
    destruct (settled_complete _ _ Hinv0 Hset0) as (_ & Hr & Hns).
    specialize (Hset0 j p Hp).
    destruct p as [[|?]|?| | | | | |?]; simpl in *; try done; eauto.
    - rewrite Hr. eauto.
    - by destruct (Hns j). }
  { split; [done|]. intros j p Hp. apply (Hset1 j); [|done].
    rewrite <- Hn1. by eapply lookup_lt_Some. }
  split; [done|].
  intros j p Hp. apply (Hfin j); [|done].
  apply lookup_lt_Some in Hp. by rewrite run_length, Hn1 in Hp.
Qed.

Lemma deliver_cases m :
  deliver m = Returned \/ exists e, deliver m = Rethrown e.
Proof. unfold deliver. destruct (exptr_ m); eauto. Qed.

Lemma finished_settled s :
  all_completers_finished s = true ->
  forall (j : nat) p, threads s !! j = Some p -> steps_left p = 0.
Proof.
  unfold all_completers_finished. rewrite forallb_forall.
  intros Hall j p Hj. apply list_elem_of_lookup_2, list_elem_of_In in Hj.
  specialize (Hall p Hj). by destruct p as [[|?]|?| | | | | |?].
Qed.

Lemma start_length works (waiters : nat) :
  length (threads (start works waiters)) = length works + waiters.
Proof. simpl. by rewrite length_app, length_fmap, length_replicate. Qed.

(** C3.  The closure made by [Completer] runs [Done] once whether the
    wrapped work returns or throws: the counter goes up by one and the
    count is untouched.  In a generation of [N] closures, under every
    schedule, once all closures are over the counter is [N], [N]
    increments happened, [Wait] no longer blocks and no waiter is asleep;
    and from every reachable state the schedule [drain] brings every
    closure to its end and every waiter out of [Wait()] with what
    [Wait] delivers. *)
Theorem completer_always_done works (waiters : nat) (sched : list action) :
  (Z.of_nat (length works) < size_t_modulus)%Z ->
  (forall (func : Outcome Exn) m,
      completed_count_ (fst (Completer func m)) = size_t_succ (completed_count_ m)
      /\ count_ (fst (Completer func m)) = count_ m)
  /\ (let s := run sched (start works waiters) in
      all_completers_finished s = true ->
      completed_count_ (mw s) = Z.of_nat (length works)
      /\ dones (trace s) = Z.of_nat (length works)
      /\ Wait (mw s) <> Blocked
      /\ forall (j : nat), threads s !! j <> Some WSleep)
  /\ (let s' := run (sched ++ drain (length works + waiters))
                    (start works waiters) in
      all_completers_finished s' = true
      /\ forall (j : nat) p,
           threads s' !! j = Some p -> is_completer p = false ->
           p = WExit (deliver (mw s')) /\ Wait (mw s') = deliver (mw s')).
Proof.
  intros Hbound. split_and!.
  - intros [|e] m; done.
  - intros s Hfin.
    pose proof (reachable_inv works waiters sched Hbound) as Hinv. fold s in Hinv.
    destruct (settled_complete _ _ Hinv (finished_settled _ Hfin)) as (Hc & Hr & Hns).
    split_and!; try done.
    + by rewrite (inv_dones _ _ Hinv).
    + unfold Wait. rewrite Hr. destruct (deliver_cases (mw s)) as [->|[e ->]]; done.
  - intros s'. unfold s'. rewrite run_app.
    set (s := run sched (start works waiters)).
    pose proof (reachable_inv works waiters sched Hbound) as Hinv. fold s in Hinv.
    assert (Hlen : length (threads s) = length works + waiters).
    { unfold s. by rewrite run_length, start_length. }
    rewrite <- Hlen.
    destruct (drain_finishes _ _ Hbound Hinv) as [Hinv' Hfin].
    split.
    + unfold all_completers_finished. apply forallb_forall.
      intros p (j & Hj)%list_elem_of_In%list_elem_of_lookup_1.
      by destruct (Hfin j p Hj) as [->|[r ->]].
    + intros j p Hj Hw.
      destruct (Hfin j p Hj) as [->|[r ->]]; [done|].
      destruct (inv_exit _ _ Hinv' _ _ Hj) as [Hr ->].
      split; [done|]. unfold Wait. by rewrite Hr.
Qed.

(** C1, as amended.  The catch block stores the failure it caught
    whatever was stored before, so at every point of every schedule
    [exptr_] is the failure captured most recently, and a waiter that
    left [Wait()] was given that failure (or returned normally when no
    unit of work failed). *)
Theorem last_failure_wins works (waiters : nat) (sched : list action) :
  (Z.of_nat (length works) < size_t_modulus)%Z ->
  (forall (e : Exn) m, exptr_ (capture e m) = Some e)
  /\ (let s := run sched (start works waiters) in
      exptr_ (mw s) = head (captures (trace s))
      /\ forall (i : nat) r,
           threads s !! i = Some (WExit r) ->
           r = match head (captures (trace s)) with
               | Some e => Rethrown e
               | None => Returned
               end).
Proof.
  intros Hbound. split; [done|]. intros s.
  pose proof (reachable_inv works waiters sched Hbound) as Hinv. fold s in Hinv.
  split; [apply Hinv|].
  intros i r Hi. destruct (inv_exit _ _ Hinv _ _ Hi) as [_ ->].
  unfold deliver. by rewrite (inv_exptr _ _ Hinv).
Qed.

(** With one failing unit of work, a complete barrier holds its failure. *)
Lemma single_failure_stored works s (k : nat) (e : Exn) :
  generation_inv works s ->
  works !! k = Some (Raised e) ->
  (forall (j : nat) w, works !! j = Some w -> j <> k -> w = Normal) ->
  reached (mw s) = true ->
  deliver (mw s) = Rethrown e.
Proof.
  intros Hinv Hk Hothers Hr.
  pose proof Hinv as [Hc Hcomp Htot Hd Hex Hsl Hnt Hexit Htr Hrun Hcatch Hcap Hraised].
  assert (Hb : tally before_done (threads s) = 0%Z).
  { apply Z.leb_le in Hr. pose proof (tally_nonneg before_done (threads s)). lia. }
  assert (He : e ∈ captures (trace s)).
  { destruct (Hraised _ _ Hk) as [H|[H|H]]; [| |done];
      by pose proof (tally_zero before_done _ _ _ Hb H). }
  unfold deliver. rewrite Hex.
  destruct (captures (trace s)) as [|e0 cs] eqn:Hcs; [by apply elem_of_nil in He|].
  simpl. f_equal.
  assert (Raised e0 ∈ works) as (j & Hj)%list_elem_of_lookup_1
    by (apply Hcap; left).
  destruct (decide (j = k)) as [->|Hne]; [congruence|].
  by specialize (Hothers _ _ Hj Hne).
Qed.

(** C4.  [Wait()] stays blocked while [completed_count_] is below
    [count_]: a waiter that checks the predicate then goes to sleep and
    no exit is recorded.  In a generation of [N] closures, under every
    schedule, every exit of a waiter in the trace happened after [N]
    increments of the counter; and when exactly one of the units of
    work fails, with [e], every one of those exits rethrew [e]. *)
Theorem wait_blocks_until_count works (waiters : nat) (sched : list action) :
  (Z.of_nat (length works) < size_t_modulus)%Z ->
  (forall m, (completed_count_ m < count_ m)%Z -> Wait m = Blocked)
  /\ (forall s (i : nat),
        threads s !! i = Some WCheck ->
        (completed_count_ (mw s) < count_ (mw s))%Z ->
        threads (step i s) !! i = Some WSleep
        /\ trace (step i s) = trace s)
  /\ (let s := run sched (start works waiters) in
      exits_after (Z.of_nat (length works)) (deliver (mw s)) (trace s)
      /\ (forall (i : nat) r,
            threads s !! i = Some (WExit r) ->
            completed_count_ (mw s) = Z.of_nat (length works)
            /\ dones (trace s) = Z.of_nat (length works))
      /\ forall (k : nat) (e : Exn),
           works !! k = Some (Raised e) ->
           (forall (j : nat) w, works !! j = Some w -> j <> k -> w = Normal) ->
           exits_after (Z.of_nat (length works)) (Rethrown e) (trace s)
           /\ forall (i : nat) r,
                threads s !! i = Some (WExit r) -> r = Rethrown e).
Proof.
  intros Hbound. split_and!.
  - intros m Hlt. unfold Wait, reached.
    by destruct (Z.leb_spec (count_ m) (completed_count_ m)); [lia|].
  - intros s i Hi Hlt.
    assert (Hr : reached (mw s) = false) by (by apply Z.leb_gt).
    rewrite (step_lookup_self _ _ _ Hi). unfold step. rewrite Hi. simpl.
    by rewrite Hr.
  - intros s.
    pose proof (reachable_inv works waiters sched Hbound) as Hinv. fold s in Hinv.
    pose proof Hinv as [Hc Hcomp Htot Hd Hex Hsl Hnt Hexit Htr Hrun Hcatch Hcap Hraised].
    split_and!; [done| |].
    + intros i r Hi. destruct (Hexit _ _ Hi) as [Hr _].
      apply Z.leb_le in Hr. pose proof (tally_nonneg before_done (threads s)).
      lia.
    + intros k e Hk Hothers. split.
      * destruct (reached (mw s)) eqn:Hr.
        -- by rewrite <- (single_failure_stored _ _ _ _ Hinv Hk Hothers Hr).
        -- apply (exits_after_change _ (deliver (mw s))); [|done].
           apply Z.leb_gt in Hr. lia.
      * intros i r Hi. destruct (Hexit _ _ Hi) as [Hr ->].
        by apply (single_failure_stored works s k).
Qed.

(** The flags of [k] consecutive [Done]s. *)
Lemma Done_times_flags (k : nat) m :
  (0 <= completed_count_ m)%Z ->
  (completed_count_ m + Z.of_nat k < size_t_modulus)%Z ->
  snd (Done_times k m)
  = (fun j : nat => (count_ m <=? completed_count_ m + Z.of_nat (S j))%Z)
      <$> seq 0 k.
Proof.
  revert m. induction k as [|k IH]; intros m H0 Hlt; [done|].
  cbn [Done_times]. unfold Done at 1.
  set (m1 := {| count_ := count_ m;
                completed_count_ := size_t_succ (completed_count_ m);
                exptr_ := exptr_ m |}).
  assert (Hs : completed_count_ m1 = (completed_count_ m + 1)%Z).
  { simpl. unfold size_t_succ. apply Z.mod_small. lia. }
  assert (Hc : count_ m1 = count_ m) by done.
  specialize (IH m1). rewrite Hs, Hc in IH.
  specialize (IH ltac:(lia) ltac:(lia)).
  destruct (Done_times k m1) as [m2 bs]. cbn [snd] in IH |- *.
  rewrite IH. cbn [seq fmap list_fmap]. f_equal.
  - unfold reached. rewrite Hs, Hc. f_equal; lia.
  - rewrite <- fmap_S_seq, <- list_fmap_compose. apply list_fmap_ext.
    intros _ j _. cbn [compose]. f_equal; lia.
Qed.

(** C5, as amended.  [Done] decides to broadcast exactly when its own
    increment leaves [completed_count_ >= count_]; so of [k] calls after
    [Reset(n)] the [j]-th (from 0) broadcasts iff [n <= j + 1]: the
    calls before the [n]-th do not, the [n]-th and every later one do.
    With [n >= 1] and no more than [n] calls there is no broadcast
    while fewer than [n] calls were made, and exactly one, by the
    [n]-th call, once [n] were made.  The broadcast wakes every sleeping
    waiter, and in a generation of [N >= 1] closures the trace holds
    exactly one broadcast once all closures are over. *)
Theorem broadcast_from_count_on works (waiters : nat) (sched : list action)
    (n k : nat) (m0 : t Exn) :
  (Z.of_nat (length works) < size_t_modulus)%Z ->
  (Z.of_nat k < size_t_modulus)%Z ->
  (Z.of_nat n < size_t_modulus)%Z ->
  (forall m, snd (Done m) = (count_ m <=? size_t_succ (completed_count_ m))%Z)
  /\ snd (Done_times k (Reset (Z.of_nat n) m0))
     = (fun j : nat => bool_decide (n <= S j)) <$> seq 0 k
  /\ (1 <= n -> k <= n ->
      snd (Done_times k (Reset (Z.of_nat n) m0))
      = if decide (k = n) then replicate (n - 1) false ++ [true]
        else replicate k false)
  /\ (forall s (i j : nat),
        threads s !! i = Some CNotify ->
        trace (step i s) = EvNotify i :: trace s
        /\ threads (step i s) !! j <> Some WSleep)
  /\ (let s := run sched (start works waiters) in
      1 <= length works -> all_completers_finished s = true ->
      notifies (trace s) = 1).
Proof.
  intros Hbound Hk Hsize.
  assert (Hflags : snd (Done_times k (Reset (Z.of_nat n) m0))
                   = (fun j : nat => bool_decide (n <= S j)) <$> seq 0 k).
  { rewrite Done_times_flags by (simpl; lia). apply list_fmap_ext.
    intros _ j _. cbn [Reset count_ completed_count_].
    destruct (Z.leb_spec (Z.of_nat n) (0 + Z.of_nat (S j)));
      [rewrite bool_decide_eq_true_2|rewrite bool_decide_eq_false_2]; lia. }
  split_and!; try done.
  - intros Hn Hkn. rewrite Hflags. apply list_eq. intros j.
    rewrite list_lookup_fmap.
    destruct (decide (j < k)) as [Hj|Hj].
    + rewrite lookup_seq_lt by done. simpl. destruct (decide (k = n)) as [->|Hne].
      * destruct (decide (S j = n)) as [<-|?].
        -- rewrite bool_decide_eq_true_2 by lia.
           rewrite lookup_app_r; rewrite length_replicate; [|lia].
           by replace (j - (S j - 1)) with 0 by lia.
        -- rewrite bool_decide_eq_false_2 by lia.
           rewrite lookup_app_l by (rewrite length_replicate; lia).
           symmetry. apply lookup_replicate. split; [done|lia].
      * rewrite bool_decide_eq_false_2 by lia.
        symmetry. by apply lookup_replicate.
    + rewrite lookup_seq_ge by lia. simpl. symmetry. apply lookup_ge_None.
      destruct (decide (k = n)); rewrite ?length_app, ?length_replicate; simpl; lia.
  - intros s i j Hi. unfold step. rewrite Hi. simpl. split; [done|].
    intros Hj.
    assert (Hi' : (wake <$> threads s) !! i = Some CNotify)
      by (by rewrite list_lookup_fmap, Hi).
    pose proof (tally_insert asleep _ _ _ CFinished Hi') as Ht.
    rewrite tally_wake_asleep in Ht. simpl in Ht.
    by pose proof (tally_zero asleep _ _ _ Ht Hj).
  - intros s Hn Hfin.
    pose proof (reachable_inv works waiters sched Hbound) as Hinv. fold s in Hinv.
    destruct (settled_complete _ _ Hinv (finished_settled _ Hfin)) as (_ & Hr & _).
    pose proof (inv_notify _ _ Hinv) as Hnt. rewrite Hr in Hnt.
    assert (Hz : tally notifying (threads s) = 0%Z).
    { apply tally_none. intros p (j & Hj)%list_elem_of_lookup_1.
      pose proof (finished_settled _ Hfin j p Hj).
      by destruct p as [[|?]|?| | | | | |?]. }
    lia.
Qed.







End BarrierFacts.

(** *** Concrete runs *)

(** C1, counterexample.  Two units of work fail, with 1 and then with 2.
    The failure recorded first is 1, yet the barrier holds 2 and the
    waiter is given 2. *)
Lemma first_failure_is_overwritten :
  let s := run [Run 0; Run 0; Run 0; Run 1; Run 1; Run 1; Run 1; Run 2]
               (start [Raised 1; Raised 2] 1) in
  last (captures (trace s)) = Some 1
  /\ exptr_ (mw s) = Some 2
  /\ threads s !! 2 = Some (WExit (Rethrown 2))
  /\ Wait (mw s) <> Rethrown 1.
Proof. vm_compute. by split_and!. Qed.

Lemma last_failure_wins_witness :
  (Z.of_nat (length [Raised 1; Normal; Raised 2]) < size_t_modulus)%Z
  /\ (let s := run [Run 2; Run 0; Run 0; Run 2; Run 3; Run 1]
                   (start [Raised 1; Normal; Raised 2] 1) in
      exptr_ (mw s) = head (captures (trace s))
      /\ forall (i : nat) r,
           threads s !! i = Some (WExit r) ->
           r = match head (captures (trace s)) with
               | Some e => Rethrown e
               | None => Returned
               end).
Proof.
  split; [reflexivity|].
  apply (last_failure_wins [Raised 1; Normal; Raised 2] 1
           [Run 2; Run 0; Run 0; Run 2; Run 3; Run 1]).
  reflexivity.
Defined.

Lemma completer_always_done_witness :
  (Z.of_nat (length [Normal; Raised 7]) < size_t_modulus)%Z
  /\ (let s' := run ([Run 2; Run 1] ++ drain (length [Normal; Raised 7] + 2))
                    (start [Normal; Raised 7] 2) in
      all_completers_finished s' = true
      /\ forall (j : nat) p,
           threads s' !! j = Some p -> is_completer p = false ->
           p = WExit (deliver (mw s')) /\ Wait (mw s') = deliver (mw s')).
Proof.
  split; [reflexivity|].
  apply (completer_always_done [Normal; Raised 7] 2 [Run 2; Run 1]).
  reflexivity.
Defined.

Lemma wait_blocks_until_count_witness :
  (Z.of_nat (length [Normal; Raised 7; Normal]) < size_t_modulus)%Z
  /\ [Normal; Raised 7; Normal] !! 1 = Some (Raised 7)
  /\ (let s := run [Run 3; Run 1; Run 0; Run 0; Run 1; Run 1; Run 2; Run 2;
                    Run 2; Run 4; Run 3]
                   (start [Normal; Raised 7; Normal] 2) in
      threads s !! 3 = Some (WExit (Rethrown 7))
      /\ threads s !! 4 = Some (WExit (Rethrown 7))
      /\ exits_after 3 (Rethrown 7) (trace s)
      /\ forall (i : nat) r,
           threads s !! i = Some (WExit r) -> r = Rethrown 7).
Proof.
  split; [reflexivity|]. split; [reflexivity|].
  split; [reflexivity|]. split; [reflexivity|].
  destruct (wait_blocks_until_count [Normal; Raised 7; Normal] 2
              [Run 3; Run 1; Run 0; Run 0; Run 1; Run 1; Run 2; Run 2;
               Run 2; Run 4; Run 3] eq_refl) as (_ & _ & _ & _ & Hone).
  apply (Hone 1 7); [reflexivity|].
  intros [|[|[|j]]] w Hw Hj; by simplify_eq/=.
Defined.

(** C5, counterexample.  After [Reset(1)] a second call of [Done] finds
    the counter at the count already and broadcasts again: two
    broadcasts in one generation. *)
Lemma second_done_broadcasts_again :
  snd (Done_times 2 (Reset 1 (@mk unit 0 0 None))) = [true; true].
Proof. reflexivity. Qed.


Lemma broadcast_from_count_on_witness :
  (Z.of_nat (length [Normal; Raised 7]) < size_t_modulus)%Z
  /\ (Z.of_nat 2 < size_t_modulus)%Z
  /\ (Z.of_nat 3 < size_t_modulus)%Z
  /\ snd (Done_times 2 (Reset (Z.of_nat 3) (@mk nat 0 0 None)))
     = [false; false]
  /\ snd (Done_times 3 (Reset (Z.of_nat 3) (@mk nat 0 0 None)))
     = [false; false; true]
  /\ (let s := run (drain 3) (start [Normal; Raised 7] 1) in
      all_completers_finished s = true /\ notifies (trace s) = 1).
Proof.
  split; [reflexivity|]. split; [reflexivity|]. split; [reflexivity|].
  destruct (broadcast_from_count_on [Normal; Raised 7] 1 (drain 3) 3 2
              (@mk nat 0 0 None) eq_refl eq_refl eq_refl)
    as (_ & _ & Hflags & _ & Hone).
  destruct (broadcast_from_count_on [Normal; Raised 7] 1 (drain 3) 3 3
              (@mk nat 0 0 None) eq_refl eq_refl eq_refl)
    as (_ & _ & Hflags' & _).
  split; [apply (Hflags (le_n_S _ _ (le_0_n _)) (le_S _ _ (le_n _)))|].
  split; [apply (Hflags' (le_n_S _ _ (le_0_n _)) (le_n _))|].
  split; [reflexivity|].
  apply Hone; [apply le_S, le_n|reflexivity].
Defined.

End MultiWaitFacts.

(* ===================================================================== *)
(** * Facts about the IR nodes *)
(* ===================================================================== *)

Module IRFacts.
Import IR.

Section NodeFacts.
Context `{H : Hashing} `{B : Backend}.

Lemma shape_only_determined : ShapeDetermined shape_only_backend.
Proof. split; simpl; intros; by subst. Qed.


Lemma InferOutputShape_2 (s1 s2 : Shape) (f : list XlaOp -> XlaOp) :
  InferOutputShape [s1; s2] f
  = ShapeOfXlaOp (f [xla_Parameter 0 s1; xla_Parameter 1 s2]).
Proof. done. Qed.



(** C7.  Cloning a node of one of the classes at hand with its own
    operand list gives the node again: the same kind, operands,
    kind-specific arguments and shape, and so the same hash. *)
Theorem clone_with_own_operands (n : Node) :
  constructed n ->
  exists n', Clone n (operands n) = Some n'
             /\ n' = n
             /\ op n' = op n
             /\ operands n' = operands n
             /\ params n' = params n
             /\ hash n' = hash n.
Proof.
  intros Hn. exists n. split; [|done].
  destruct Hn; done.
Qed.

(** C8.  [Clone] succeeds whenever the replacement list has the
    positions the node reads (all those of the node's own operand
    list): the clone is again a node of the same class with the same
    kind, kind-specific arguments and number of outputs, bound to the
    new operands (a [Generic] node takes the whole list, the others the
    positions they have).  It fails only when the list is shorter than
    the node's operand list, with the [std::out_of_range] of
    [operands.at]. *)
Theorem clone_fails_only_on_arity (n : Node) (new_operands : OpList) :
  constructed n ->
  (length (operands n) <= length new_operands ->
   exists n', Clone n new_operands = Some n'
              /\ constructed n'
              /\ op n' = op n
              /\ params n' = params n
              /\ num_outputs n' = num_outputs n
              /\ operands n'
                 = if is_generic (params n) then new_operands
                   else take (length (operands n)) new_operands)
  /\ (Clone n new_operands = None ->
      length new_operands < length (operands n)
      /\ length new_operands <> length (operands n)).
Proof.
  intros Hn. split.
  - intros Hlen.
    destruct Hn; destruct new_operands as [|x0 [|x1 rest]];
      simpl in Hlen; try lia; unfold Clone; simpl;
      eexists; (split; [done|]); split_and!; try done; constructor.
  - destruct Hn; destruct new_operands as [|x0 [|x1 rest]];
      unfold Clone; simpl; try done; intros _; lia.
Qed.

End NodeFacts.

(** *** Concrete nodes *)

Section Samples.
#[local] Existing Instance sample_hashing.
#[local] Existing Instance shape_only_backend.
#[local] Existing Instance shape_only_determined.
Local Open Scope Z_scope.


Lemma clone_with_own_operands_witness :
  let input : Value := sample_input [2; 3; 5] 0 in
  let n := Prod input [1] true (Some 6) in
  constructed n
  /\ exists n', Clone n (operands n) = Some n'
                /\ n' = n
                /\ op n' = op n
                /\ operands n' = operands n
                /\ params n' = params n
                /\ hash n' = hash n.
Proof.
  intros input n. split; [constructor|].
  apply (clone_with_own_operands n). constructor.
Defined.

Lemma clone_fails_only_on_arity_witness :
  let a : Value := sample_input [2; 3; 5] 0 in
  let b : Value := sample_input [2; 1; 5] 1 in
  let n := Unselect a b 1 0 1 1 in
  constructed n
  /\ (length (operands n) <= length [b; a; a])%nat
  /\ Clone n [b; a; a] = Some (Unselect b a 1 0 1 1)
  /\ Clone n [b] = None
  /\ (length [b] < length (operands n))%nat.
Proof.
  intros a b n.
  destruct (clone_fails_only_on_arity n [b] (constructed_Unselect a b 1 0 1 1))
    as [_ Hfail].
  split; [constructor|]. split; [simpl; lia|].
  split; [reflexivity|]. split; [reflexivity|].
  apply Hfail. reflexivity.
Defined.

End Samples.
End IRFacts.

(* ===================================================================== *)
(** * Facts about the mesh rendezvous *)
(* ===================================================================== *)

Module MeshFacts.
Import Mesh.

Implicit Types (s : MeshService) (calls : list (Z * string * string)).

Lemma Register_Some (o : Z) (tag p : string) s s' :
  Register o tag p s = Some s' ->
  (0 <= o < Z.of_nat (num_workers s))%Z
  /\ entries s !! (o, tag) = None
  /\ s' = mkService (num_workers s) (<[(o, tag) := p]> (entries s)).
Proof.
  unfold Register. case_decide as Hd; [|done].
  intros [= <-]. by destruct Hd.
Qed.

Lemma serve_num_workers calls s s' :
  serve calls s = Some s' -> num_workers s' = num_workers s.
Proof.
  revert s. induction calls as [|[[o tag] p] calls IH]; intros s Hs; simplify_eq/=.
  - done.
  - destruct (Register o tag p s) as [s1|] eqn:Hr; simplify_eq/=.
    rewrite (IH _ Hs). by apply Register_Some in Hr as (_ & _ & ->).
Qed.

(** The entries of the service are the registrations that arrived. *)
Lemma serve_entries calls s s' (k : Z * string) (v : string) :
  serve calls s = Some s' ->
  entries s' !! k = Some v
  <-> entries s !! k = Some v \/ (k.1, k.2, v) ∈ calls.
Proof.
  revert s. induction calls as [|[[o tag] p] calls IH]; intros s Hs; simplify_eq/=.
  - split; [auto|]. intros [?|[]%elem_of_nil]. done.
  - destruct (Register o tag p s) as [s1|] eqn:Hr; simplify_eq/=.
    rewrite (IH _ Hs). apply Register_Some in Hr as (_ & Hfree & ->). simpl.
    rewrite elem_of_cons, lookup_insert_Some. destruct k as [o' tag']. simpl.
    split.
    + intros [[[? ?]|[? ?]]|?]; simplify_eq; auto.
    + intros [?|[?|?]]; simplify_eq; auto.
      destruct (decide ((o, tag) = (o', tag'))); simplify_eq; auto.
Qed.

Lemma serve_empty_entries (P : nat) calls s (o : Z) (tag v : string) :
  serve calls (empty P) = Some s ->
  entries s !! (o, tag) = Some v <-> (o, tag, v) ∈ calls.
Proof.
  intros Hs. rewrite (serve_entries _ _ _ (o, tag) v Hs). simpl.
  rewrite lookup_empty. split; [by intros [?|?]|auto].
Qed.

Lemma collected_Some s (tag : string) (l : list string) :
  collected s tag = Some l
  <-> length l = num_workers s
      /\ forall (i : nat) (p : string),
           l !! i = Some p
           <-> i < num_workers s /\ entries s !! (Z.of_nat i, tag) = Some p.
Proof.
  unfold collected, ordinals. rewrite mapM_Some. split.
  - intros HF. pose proof (Forall2_length _ _ _ HF) as Hlen.
    rewrite length_fmap, length_seq in Hlen. split; [done|].
    intros i p. split.
    + intros Hi. pose proof (lookup_lt_Some _ _ _ Hi) as Hlt.
      split; [lia|].
      destruct (Forall2_lookup_r _ _ _ _ _ HF Hi) as (o & Ho & Hop).
      rewrite list_lookup_fmap, lookup_seq_lt in Ho by lia. by simplify_eq/=.
    + intros [Hlt Hp].
      assert ((Z.of_nat <$> seq 0 (num_workers s)) !! i = Some (Z.of_nat i)) as Ho
        by (by rewrite list_lookup_fmap, lookup_seq_lt by lia).
      destruct (Forall2_lookup_l _ _ _ _ _ HF Ho) as (q & Hq & Hoq).
      congruence.
  - intros [Hlen Hl]. apply Forall2_same_length_lookup_2.
    + by rewrite length_fmap, length_seq.
    + intros i o p Ho Hp. rewrite list_lookup_fmap in Ho.
      destruct (seq 0 (num_workers s) !! i) as [j|] eqn:Hj; simplify_eq/=.
      apply lookup_seq in Hj as [-> _]. by apply Hl in Hp as [_ ?].
Qed.

Lemma collected_is_Some s (tag : string) :
  is_Some (collected s tag)
  <-> forall i : Z, (0 <= i < Z.of_nat (num_workers s))%Z ->
                    is_Some (entries s !! (i, tag)).
Proof.
  unfold collected, ordinals. rewrite mapM_is_Some, Forall_fmap, Forall_forall.
  split.
  - intros HF i Hi. specialize (HF (Z.to_nat i)). simpl in HF.
    rewrite Z2Nat.id in HF by lia. apply HF. apply elem_of_seq. lia.
  - intros Hall j Hj%elem_of_seq. simpl. apply Hall. lia.
Qed.

(** C9.  With [P] workers and the registrations [calls] arrived, the
    call of worker [o] for [tag] has an answer exactly when [o] and
    every ordinal [0 .. P-1] have registered for [tag]; until then it
    is blocked.  The answer has [P] payloads, the [i]-th being the one
    ordinal [i] registered for [tag]; all callers for the tag get the
    same list; and a later registration leaves it as it is. *)
Theorem rendezvous_all_or_nothing (P : nat) calls s (tag : string) :
  serve calls (empty P) = Some s ->
  (forall o : Z,
      is_Some (Rendezvous_reply s o tag)
      <-> (exists p, (o, tag, p) ∈ calls)
          /\ forall i : Z, (0 <= i < Z.of_nat P)%Z ->
                           exists p, (i, tag, p) ∈ calls)
  /\ (forall (o : Z) (l : list string),
        Rendezvous_reply s o tag = Some l ->
        length l = P
        /\ forall (i : nat) (p : string),
             l !! i = Some p <-> i < P /\ (Z.of_nat i, tag, p) ∈ calls)
  /\ (forall (o o' : Z) (l l' : list string),
        Rendezvous_reply s o tag = Some l ->
        Rendezvous_reply s o' tag = Some l' ->
        l = l')
  /\ (forall (o o' : Z) (l : list string) (tag' p' : string) s',
        Rendezvous_reply s o tag = Some l ->
        Register o' tag' p' s = Some s' ->
        Rendezvous_reply s' o tag = Some l).
Proof.
  intros Hs. pose proof (serve_num_workers _ _ _ Hs) as HP. simpl in HP.
  assert (Hent : forall o t v, entries s !! (o, t) = Some v <-> (o, t, v) ∈ calls)
    by (intros; by eapply serve_empty_entries).
  split_and!.
  - intros o. unfold Rendezvous_reply.
    destruct (entries s !! (o, tag)) as [v|] eqn:Ho.
    + rewrite collected_is_Some, HP. split.
      * intros Hall. split; [exists v; by apply Hent|].
        intros i Hi. destruct (Hall i Hi) as [p Hp]. exists p. by apply Hent.
      * intros [_ Hall] i Hi. destruct (Hall i Hi) as [p Hp].
        exists p. by apply Hent.
    + split; [by intros [? ?]|]. intros [[p Hp%Hent] _]. congruence.
  - intros o l. unfold Rendezvous_reply.
    destruct (entries s !! (o, tag)); [|done].
    rewrite collected_Some, HP. intros [Hlen Hl]. split; [done|].
    intros i p. by rewrite Hl, Hent.
  - intros o o' l l'. unfold Rendezvous_reply.
    destruct (entries s !! (o, tag)); [|done].
    destruct (entries s !! (o', tag)); [|done]. congruence.
  - intros o o' l tag' p' s'. unfold Rendezvous_reply.
    destruct (entries s !! (o, tag)) as [v|] eqn:Ho; [|done].
    intros Hl (_ & Hfree & ->)%Register_Some. simpl.
    assert (Hkeep : forall k w, entries s !! k = Some w ->
                      <[(o', tag') := p']> (entries s) !! k = Some w).
    { intros k w Hk. rewrite lookup_insert_ne; [done|]. congruence. }
    rewrite (Hkeep _ _ Ho).
    apply collected_Some in Hl as [Hlen Hl]. apply collected_Some. simpl.
    split; [done|]. intros i p. rewrite Hl. split.
    + intros [? ?]. split; [done|]. by apply Hkeep.
    + intros [Hi Hp]. split; [done|].
      destruct (proj1 (Hl i p)) as [_ Hq]; [|done].
      assert (is_Some (l !! i)) as [q Hq] by (apply lookup_lt_is_Some; lia).
      pose proof (proj1 (Hl i q) Hq) as [_ Hq'].
      rewrite (Hkeep _ _ Hq') in Hp. congruence.
Qed.

(** Three workers at "barrier1": nobody is answered after two
    registrations, everybody gets ["0"; "1"; "2"] after the third. *)
Lemma rendezvous_all_or_nothing_witness :
  let calls := [(1, "barrier1", "1"); (2, "barrier1", "2");
                (0, "barrier1", "0")]%Z in
  (exists s2, serve (take 2 calls) (empty 3) = Some s2
              /\ Rendezvous_reply s2 1 "barrier1" = None
              /\ Rendezvous_reply s2 2 "barrier1" = None)
  /\ exists s, serve calls (empty 3) = Some s
               /\ Rendezvous_reply s 0 "barrier1" = Some ["0"; "1"; "2"]
               /\ Rendezvous_reply s 1 "barrier1" = Some ["0"; "1"; "2"]
               /\ Rendezvous_reply s 2 "barrier1" = Some ["0"; "1"; "2"]
               /\ forall (o o' : Z) (l l' : list string),
                    Rendezvous_reply s o "barrier1" = Some l ->
                    Rendezvous_reply s o' "barrier1" = Some l' ->
                    l = l'.
Proof.
  intros calls. split.
  - eexists. split; [reflexivity|]. by vm_compute.
  - eexists. split; [reflexivity|].
    split; [by vm_compute|]. split; [by vm_compute|]. split; [by vm_compute|].
    eapply (rendezvous_all_or_nothing 3 calls _ "barrier1"). reflexivity.
Defined.

End MeshFacts.

(* ===================================================================== *)
(** * Facts about tensor equality *)
(* ===================================================================== *)

Module TensorEqFacts.
Import TensorEq.

Section ScalarFacts.
Context {Scalar : Type} (scalar_eq scalar_ne : Scalar -> Scalar -> bool).

(** The two element-wise comparisons are complementary on every pair of
    scalars. *)
Hypothesis scalar_ne_eq : forall x y, scalar_ne x y = negb (scalar_eq x y).

Lemma any_ne_not_all_eq (xs ys : list Scalar) :
  any (zip_with scalar_ne xs ys) = negb (all (zip_with scalar_eq xs ys)).
Proof.
  revert ys. induction xs as [|x xs IH]; intros [|y ys]; simpl; try done.
  rewrite scalar_ne_eq, IH. unfold id. by destruct (scalar_eq x y).
Qed.

(** C10.  When the shapes differ, [==] is false and [!=] is true and
    neither dispatched any operation on the elements; and on every pair
    of tensors [!=] is the negation of [==]. *)
Theorem tensor_ne_negates_eq (a b : Tensor Scalar) :
  (shape a <> shape b ->
   Tensor_eq scalar_eq a b = (false, [])
   /\ Tensor_ne scalar_ne a b = (true, []))
  /\ fst (Tensor_ne scalar_ne a b) = negb (fst (Tensor_eq scalar_eq a b)).
Proof.
  unfold Tensor_eq, Tensor_ne. split.
  - intros Hne. by rewrite !decide_False by done.
  - destruct (decide (shape a = shape b)); simpl; [|done].
    apply any_ne_not_all_eq.
Qed.

End ScalarFacts.

Lemma tensor_ne_negates_eq_witness :
  let a := mkTensor [2; 2]%Z [1; 2; 3; 4]%Z in
  let b := mkTensor [4]%Z [1; 2; 3; 4]%Z in
  let c := mkTensor [2; 2]%Z [1; 2; 0; 4]%Z in
  let ne := fun x y : Z => negb (x =? y)%Z in
  (forall x y : Z, ne x y = negb (x =? y)%Z)
  /\ shape a <> shape b
  /\ Tensor_eq Z.eqb a b = (false, [])
  /\ Tensor_ne ne a b = (true, [])
  /\ Tensor_eq Z.eqb a c = (false, [RawEqual; RawAll])
  /\ fst (Tensor_ne ne a c) = negb (fst (Tensor_eq Z.eqb a c)).
Proof.
  intros a b c ne.
  assert (Hne : forall x y : Z, ne x y = negb (x =? y)%Z) by reflexivity.
  assert (Hab : shape a <> shape b) by discriminate.
  destruct (tensor_ne_negates_eq Z.eqb ne Hne a b) as [Hdiff _].
  destruct (tensor_ne_negates_eq Z.eqb ne Hne a c) as [_ Hneg].
  destruct (Hdiff Hab) as [Heq Hneq].
  split; [exact Hne|]. split; [exact Hab|]. split; [exact Heq|].
  split; [exact Hneq|]. split; [reflexivity|exact Hneg].
Defined.

End TensorEqFacts.

(* ===================================================================== *)
(** * More about MultiWait *)
(* ===================================================================== *)

Module MultiWaitMore.
Import MultiWait MultiWaitFacts.

Section Generation.
Context {Exn : Type}.
Implicit Types (m : t Exn) (s : system Exn) (p q : pc Exn).
Implicit Types (l : list (pc Exn)) (tr : list (event Exn)).
Implicit Types (works : list (Outcome Exn)).

Lemma tally_pos_inv (f : pc Exn -> bool) l :
  (0 < tally f l)%Z -> exists (j : nat) p, l !! j = Some p /\ f p = true.
Proof.
  induction l as [|x l IH]; simpl; [lia|].
  destruct (f x) eqn:Hx.
  - intros _. by exists 0, x.
  - intros Hpos. destruct IH as (j & p & Hj & Hp); [lia|]. by exists (S j), p.
Qed.

(** In a complete barrier no completer has its increment ahead. *)
Lemma reached_none_before works s :
  generation_inv works s -> reached (mw s) = true ->
  tally before_done (threads s) = 0%Z.
Proof.
  intros Hinv Hr. apply Z.leb_le in Hr.
  pose proof (inv_count _ _ Hinv). pose proof (inv_completed _ _ Hinv).
  pose proof (inv_total _ _ Hinv).
  pose proof (tally_nonneg before_done (threads s)). lia.
Qed.

(** X1.  In a generation of [N] closures, under every schedule, a
    waiter that left [Wait()] returned normally if no unit of work
    failed, and was thrown a failure that one of the units raised if
    any of them failed. *)
Theorem wait_rethrows_iff_failed works (waiters : nat) (sched : list action) :
  (Z.of_nat (length works) < size_t_modulus)%Z ->
  let s := run sched (start works waiters) in
  forall (i : nat) r,
    threads s !! i = Some (WExit r) ->
    ((forall (k : nat) w, works !! k = Some w -> w = Normal) -> r = Returned)
    /\ ((exists (k : nat) e, works !! k = Some (Raised e)) ->
        exists e, r = Rethrown e /\ Raised e ∈ works).
Proof.
  intros Hbound s i r Hi.
  pose proof (reachable_inv works waiters sched Hbound) as Hinv. fold s in Hinv.
  destruct (inv_exit _ _ Hinv _ _ Hi) as [Hr ->].
  pose proof (reached_none_before _ _ Hinv Hr) as Hb.
  unfold deliver. rewrite (inv_exptr _ _ Hinv). split.
  - intros Hall. destruct (captures (trace s)) as [|e cs] eqn:Hcs; [done|].
    assert (Raised e ∈ works) as (k & Hk)%list_elem_of_lookup_1
      by (apply (inv_captured _ _ Hinv); rewrite Hcs; left).
    by specialize (Hall _ _ Hk).
  - intros (k & e & Hk).
    assert (He : e ∈ captures (trace s)).
    { destruct (inv_raised _ _ Hinv _ _ Hk) as [H|[H|H]]; [| |done];
        by pose proof (tally_zero before_done _ _ _ Hb H). }
    destruct (captures (trace s)) as [|e0 cs] eqn:Hcs; [by apply elem_of_nil in He|].
    exists e0. split; [done|]. apply (inv_captured _ _ Hinv). rewrite Hcs. left.
Qed.

(** X2.  No wake-up is lost although [Done] broadcasts after leaving
    the lock: whenever a waiter is asleep, either some closure has its
    increment still ahead, or the barrier is complete and a thread is
    about to call [notify_all]. *)
Theorem no_lost_wakeup works (waiters : nat) (sched : list action) :
  (Z.of_nat (length works) < size_t_modulus)%Z ->
  let s := run sched (start works waiters) in
  forall (i : nat),
    threads s !! i = Some WSleep ->
    (exists (j : nat) p, threads s !! j = Some p /\ before_done p = true)
    \/ (reached (mw s) = true /\ exists (j : nat), threads s !! j = Some CNotify).
Proof.
  intros Hbound s i Hi.
  pose proof (reachable_inv works waiters sched Hbound) as Hinv. fold s in Hinv.
  destruct (reached (mw s)) eqn:Hr.
  - right. split; [done|].
    pose proof (tally_pos asleep _ _ _ Hi eq_refl) as Hpos.
    destruct (inv_sleep _ _ Hinv Hr) as [Hz|Hn]; [lia|].
    destruct (tally_pos_inv _ _ Hn) as (j & p & Hj & Hp).
    exists j. by destruct p.
  - left. apply tally_pos_inv. apply Z.leb_gt in Hr.
    pose proof (inv_count _ _ Hinv). pose proof (inv_completed _ _ Hinv).
    pose proof (inv_total _ _ Hinv). lia.
Qed.

(** X3.  In a generation of [N >= 1] closures, at every point of every
    schedule at most one broadcast was issued and at most one thread is
    about to broadcast; a broadcast happened only with the counter at
    [N]. *)
Theorem broadcast_never_early works (waiters : nat) (sched : list action) :
  (Z.of_nat (length works) < size_t_modulus)%Z ->
  1 <= length works ->
  let s := run sched (start works waiters) in
  notifies (trace s) <= 1
  /\ (notifies (trace s) = 1 ->
      completed_count_ (mw s) = Z.of_nat (length works)
      /\ dones (trace s) = Z.of_nat (length works)
      /\ forall (j : nat), threads s !! j <> Some CNotify)
  /\ (forall (j j' : nat),
        threads s !! j = Some CNotify -> threads s !! j' = Some CNotify ->
        j = j').
Proof.
  intros Hbound Hn s.
  pose proof (reachable_inv works waiters sched Hbound) as Hinv. fold s in Hinv.
  pose proof (inv_notify _ _ Hinv) as Hnt.
  pose proof (tally_nonneg notifying (threads s)) as Hnn.
  pose proof (tally_nonneg before_done (threads s)) as Hbn.
  pose proof (inv_count _ _ Hinv). pose proof (inv_completed _ _ Hinv).
  pose proof (inv_total _ _ Hinv). pose proof (inv_dones _ _ Hinv).
  split_and!.
  - destruct (reached (mw s)); lia.
  - intros Hone. destruct (reached (mw s)) eqn:Hr; [|lia].
    apply Z.leb_le in Hr. split_and!; [lia..|].
    intros j Hj. pose proof (tally_pos notifying _ _ _ Hj eq_refl). lia.
  - intros j j' Hj Hj'. destruct (decide (j = j')) as [|Hne]; [done|].
    pose proof (tally_insert notifying _ _ _ CFinished Hj) as Hins. simpl in Hins.
    assert (<[j:=CFinished]> (threads s) !! j' = Some CNotify) as Hj''
      by (by rewrite list_lookup_insert_ne).
    pose proof (tally_pos notifying _ _ _ Hj'' eq_refl).
    destruct (reached (mw s)); lia.
Qed.

(** Once the barrier is complete no step changes it. *)
Lemma exec_frozen works s (a : action) :
  generation_inv works s -> reached (mw s) = true -> mw (exec a s) = mw s.
Proof.
  intros Hinv Hr. pose proof (reached_none_before _ _ Hinv Hr) as Hb.
  destruct a as [i|i]; simpl.
  - unfold step. destruct (threads s !! i) as [p|] eqn:Hi; [|done].
    pose proof (tally_zero before_done _ _ _ Hb Hi) as Hp.
    destruct p as [[|e]|e| | | | | |r]; simpl in Hp; try done.
    by rewrite Hr.
  - destruct (threads s !! i) as [p|]; [|done]. by destruct p.
Qed.

Lemma run_frozen works s (sched : list action) :
  (Z.of_nat (length works) < size_t_modulus)%Z ->
  generation_inv works s -> reached (mw s) = true -> mw (run sched s) = mw s.
Proof.
  intros Hbound. revert s.
  induction sched as [|a sched IH]; intros s Hinv Hr; [done|].
  simpl. change (foldl _ ?x sched) with (run sched x).
  pose proof (exec_frozen _ _ a Hinv Hr) as Hm.
  rewrite IH; [done|by apply exec_inv|by rewrite Hm].
Qed.

(** X4.  Once [Wait()] would not block, nothing that the threads of
    the generation do later changes the barrier: a waiter arriving at
    any later point is given what a waiter was given then. *)
Theorem complete_barrier_is_frozen works (waiters : nat)
    (sched sched' : list action) :
  (Z.of_nat (length works) < size_t_modulus)%Z ->
  let s1 := run sched (start works waiters) in
  let s2 := run (sched ++ sched') (start works waiters) in
  Wait (mw s1) <> Blocked ->
  mw s2 = mw s1
  /\ Wait (mw s2) = Wait (mw s1)
  /\ forall (i : nat) r, threads s2 !! i = Some (WExit r) -> r = Wait (mw s1).
Proof.
  intros Hbound s1 s2 Hw.
  pose proof (reachable_inv works waiters sched Hbound) as Hinv1. fold s1 in Hinv1.
  pose proof (reachable_inv works waiters (sched ++ sched') Hbound) as Hinv2.
  fold s2 in Hinv2.
  assert (Hr : reached (mw s1) = true).
  { unfold Wait in Hw. by destruct (reached (mw s1)). }
  assert (Hm : mw s2 = mw s1).
  { unfold s2. rewrite run_app. by apply (run_frozen works). }
  split_and!; [done|by rewrite Hm|].
  intros i r Hi. destruct (inv_exit _ _ Hinv2 _ _ Hi) as [_ ->].
  rewrite Hm. unfold Wait. by rewrite Hr.
Qed.

(** X6.  A waiter woken for no reason evaluates the predicate again:
    with the barrier incomplete it is asleep again and nothing has
    changed; with the barrier complete it leaves [Wait()], broadcast or
    not. *)
Theorem spurious_wakeup_rechecks s (i : nat) :
  threads s !! i = Some WSleep ->
  (reached (mw s) = false -> exec (Run i) (exec (Spurious i) s) = s)
  /\ (reached (mw s) = true ->
      threads (exec (Run i) (exec (Spurious i) s)) !! i
      = Some (WExit (deliver (mw s)))).
Proof.
  intros Hi. pose proof (lookup_lt_Some _ _ _ Hi) as Hlen.
  assert (Hs : exec (Spurious i) s
               = mkSys (mw s) (<[i:=WCheck]> (threads s)) (trace s))
    by (simpl; by rewrite Hi).
  rewrite Hs. simpl. unfold step. simpl.
  rewrite list_lookup_insert_eq by done. split; intros ->.
  - rewrite list_insert_insert_eq, list_insert_id by done. by destruct s.
  - simpl. rewrite list_insert_insert_eq. by apply list_lookup_insert_eq.
Qed.

(** X7.  [completed_count_] is a [size_t].  Short of its largest value
    a further [Done] keeps a complete barrier complete and broadcasts
    again; at the largest value the increment wraps to 0, and a barrier
    with a positive count is incomplete again. *)
Theorem done_at_the_bound m :
  ((0 <= completed_count_ m < size_t_modulus - 1)%Z ->
   reached m = true ->
   reached (fst (Done m)) = true /\ snd (Done m) = true
   /\ completed_count_ (fst (Done m)) = (completed_count_ m + 1)%Z)
  /\ (completed_count_ m = (size_t_modulus - 1)%Z ->
      completed_count_ (fst (Done m)) = 0%Z
      /\ ((0 < count_ m)%Z ->
          reached (fst (Done m)) = false /\ snd (Done m) = false
          /\ Wait (fst (Done m)) = Blocked)).
Proof.
  unfold Done, Wait, reached, size_t_succ. simpl. split.
  - intros Hc Hr. apply Z.leb_le in Hr.
    rewrite Z.mod_small by lia.
    assert ((count_ m <=? completed_count_ m + 1)%Z = true) as ->
      by (apply Z.leb_le; lia).
    done.
  - intros ->. replace (size_t_modulus - 1 + 1)%Z with size_t_modulus by lia.
    rewrite Z.mod_same by done. split; [done|]. intros Hpos.
    assert ((count_ m <=? 0)%Z = false) as -> by (apply Z.leb_gt; lia).
    done.
Qed.

(** X5.  When the predicate holds at one of its evaluations before the
    deadline, the outcome of the timed wait depends neither on what
    follows nor on the state at the deadline, and is not the fatal one;
    on a barrier complete on entry it is that of [Wait()], whatever the
    timeout. *)
Theorem waiting_longer_changes_nothing (entry : t Exn) (wakeups more : list (t Exn))
    (at_timeout at_timeout' : t Exn) :
  Exists (fun m => reached m = true) (entry :: wakeups) ->
  WaitTimed entry (wakeups ++ more) at_timeout'
  = WaitTimed entry wakeups at_timeout
  /\ WaitTimed entry wakeups at_timeout <> Fatal
  /\ (reached entry = true ->
      WaitTimed entry wakeups at_timeout = Wait entry).
Proof.
  intros Hex.
  assert (Hgen : forall seen : list (t Exn),
             Exists (fun m => reached m = true) seen ->
             wait_for (seen ++ more) at_timeout' = wait_for seen at_timeout
             /\ fst (wait_for seen at_timeout) = true).
  { induction seen as [|m seen IH]; intros H; [by apply Exists_nil in H|].
    simpl. destruct (reached m) eqn:Hm; [done|].
    apply Exists_cons in H as [H|H]; [congruence|]. by apply IH. }
  destruct (Hgen _ Hex) as [Heq Hok].
  unfold WaitTimed. rewrite app_comm_cons, Heq.
  destruct (wait_for (entry :: wakeups) at_timeout) as [ok m] eqn:Hw.
  simpl in Hok. subst ok. simpl. split_and!; [done| |].
  - unfold deliver. by destruct (exptr_ m).
  - intros Hr. simpl in Hw. rewrite Hr in Hw. simplify_eq.
    unfold Wait. by rewrite Hr.
Qed.

End Generation.

Lemma wait_rethrows_iff_failed_witness :
  let works := [Raised 1; Normal; Raised 2] in
  let s := run (drain 4) (start works 1) in
  (Z.of_nat (length works) < size_t_modulus)%Z
  /\ threads s !! 3 = Some (WExit (Rethrown 2))
  /\ exists e, Rethrown 2 = Rethrown e /\ Raised e ∈ works.
Proof.
  intros works s. split; [reflexivity|]. split; [reflexivity|].
  destruct (wait_rethrows_iff_failed works 1 (drain 4) eq_refl 3
              (Rethrown 2) eq_refl) as [_ Hfail].
  apply Hfail. by exists 0, 1.
Defined.

Lemma no_lost_wakeup_witness :
  let works : list (Outcome nat) := [Normal] in
  let s := run [Run 1; Run 0; Run 0] (start works 1) in
  (Z.of_nat (length works) < size_t_modulus)%Z
  /\ threads s !! 1 = Some WSleep
  /\ reached (mw s) = true
  /\ ((exists (j : nat) p, threads s !! j = Some p /\ before_done p = true)
      \/ (reached (mw s) = true
          /\ exists (j : nat), threads s !! j = Some CNotify)).
Proof.
  intros works s. split; [reflexivity|]. split; [reflexivity|].
  split; [reflexivity|].
  apply (no_lost_wakeup works 1 [Run 1; Run 0; Run 0] eq_refl 1). reflexivity.
Defined.

Lemma broadcast_never_early_witness :
  let works := [Normal; Raised 5] in
  let s := run (drain 3) (start works 1) in
  (Z.of_nat (length works) < size_t_modulus)%Z
  /\ 1 <= length works
  /\ notifies (trace s) = 1
  /\ completed_count_ (mw s) = 2%Z.
Proof.
  intros works s. split; [reflexivity|].
  split; [apply le_S, le_n|]. split; [reflexivity|].
  destruct (broadcast_never_early works 1 (drain 3) eq_refl (le_S _ _ (le_n _)))
    as (_ & Hone & _).
  apply Hone. reflexivity.
Defined.

Lemma complete_barrier_is_frozen_witness :
  let works := [Raised 9] in
  let sched := [Run 0; Run 0; Run 0] in
  let sched' := [Run 1; Run 0; Run 2] in
  let s1 := run sched (start works 2) in
  let s2 := run (sched ++ sched') (start works 2) in
  (Z.of_nat (length works) < size_t_modulus)%Z
  /\ Wait (mw s1) = Rethrown 9
  /\ threads s2 !! 2 = Some (WExit (Rethrown 9))
  /\ mw s2 = mw s1.
Proof.
  intros works sched sched' s1 s2. split; [reflexivity|].
  split; [reflexivity|]. split; [reflexivity|].
  apply (complete_barrier_is_frozen works 2 sched sched' eq_refl).
  discriminate.
Defined.

Lemma spurious_wakeup_rechecks_witness :
  let s := run [Run 2; Run 0] (start [@Normal nat; Normal] 1) in
  threads s !! 2 = Some WSleep
  /\ reached (mw s) = false
  /\ exec (Run 2) (exec (Spurious 2) s) = s.
Proof.
  intros s. split; [reflexivity|]. split; [reflexivity|].
  apply (@spurious_wakeup_rechecks nat s 2); reflexivity.
Defined.

Lemma done_at_the_bound_witness :
  let m := @mk nat 3 (size_t_modulus - 1) None in
  reached m = true
  /\ completed_count_ (fst (Done m)) = 0%Z
  /\ Wait (fst (Done m)) = Blocked.
Proof.
  intros m. split; [reflexivity|].
  destruct (done_at_the_bound m) as [_ Hwrap].
  destruct (Hwrap eq_refl) as [Hzero Hrest]. split; [exact Hzero|].
  apply Hrest. reflexivity.
Defined.

Lemma waiting_longer_changes_nothing_witness :
  let busy := @mk nat 2 1 None in
  let full := @mk nat 2 2 (Some 4) in
  Exists (fun m => reached m = true) [busy; full]
  /\ WaitTimed busy [full; busy] busy = WaitTimed busy [full] busy
  /\ WaitTimed busy [full] busy = Rethrown 4.
Proof.
  intros busy full.
  assert (Hex : Exists (fun m => reached m = true) [busy; full])
    by (apply Exists_cons_tl, Exists_cons_hd; reflexivity).
  split; [exact Hex|]. split; [|reflexivity].
  apply (waiting_longer_changes_nothing busy [full] [busy] busy busy Hex).
Defined.

End MultiWaitMore.

(* ===================================================================== *)
(** * More about the IR nodes *)
(* ===================================================================== *)

Module IRMore.
Import IR IRLower.

Section CloneFacts.
Context `{H : Hashing} `{B : Backend}.

(** X8.  Cloning composes: the clone of a node is again a node of one
    of the classes, cloning it gives what cloning the original gives,
    and cloning it with the original's operands gives the original
    back. *)
Theorem clone_composes (n n1 : Node) (a b : OpList) :
  constructed n ->
  Clone n a = Some n1 ->
  constructed n1
  /\ Clone n1 b = Clone n b
  /\ Clone n1 (operands n) = Some n.
Proof.
  intros Hn Ha.
  destruct Hn; destruct a as [|a0 [|a1 rest]]; unfold Clone in Ha;
    simplify_eq/=; (split; [constructor|done]).
Qed.

(** X9.  The shape of a clone.  A [Generic] node keeps the shape it
    was built with, whatever the new operands; the element-wise classes
    take the shape of the new first operand; [UpsampleNearest], [Prod],
    [Expand] and [ReflectionPad2dBackward] compute it again from the
    shapes of the new operands. *)
Theorem clone_shape (n n' : Node) (ops : OpList) :
  constructed n ->
  Clone n ops = Some n' ->
  match params n with
  | GenericP _ _ => shape n' = shape n /\ operands n' = ops
  | LeakyReluP _ | SoftshrinkP _ | LogSoftmaxBackwardP _
  | UnselectP _ _ _ _ | HardtanhBackwardP _ _ =>
      exists x, ops !! 0 = Some x /\ shape n' = Value_shape x
  | UpsampleNearestP output_size =>
      exists x, ops !! 0 = Some x
                /\ shape n' = GetForwardOutputShape2d (Value_shape x) output_size
  | ProdP dimensions keep dtype =>
      exists x, ops !! 0 = Some x
                /\ shape n'
                   = ShapeOfXlaOp (LowerProd (xla_Parameter 0 (Value_shape x))
                                             dimensions keep dtype)
  | ExpandP size =>
      exists x, ops !! 0 = Some x
                /\ shape n'
                   = ShapeOfXlaOp (BuildExpand (xla_Parameter 0 (Value_shape x))
                                               size)
  | ReflectionPad2dBackwardP padding =>
      exists g x, ops !! 0 = Some g /\ ops !! 1 = Some x
                  /\ shape n'
                     = ShapeOfXlaOp
                         (BuildReflectionPad2dBackward
                            (xla_Parameter 0 (Value_shape g))
                            (xla_Parameter 1 (Value_shape x)) padding)
  end.
Proof.
  intros Hn Hc.
  destruct Hn; destruct ops as [|x0 [|x1 rest]]; unfold Clone in Hc;
    simplify_eq/=; eauto.
Qed.

Context `{E : !Elementwise B}.
Context (invoke : LowerFn -> Node -> LoweringContext -> option (list XlaOp)).

(** X10.  [Lower] on a node of the classes other than [Generic], and
    on any clone of it, finds the operands it reads and returns exactly
    one value, as [num_outputs] says; the value of a clone is built
    from what the new operands were lowered to and the arguments of the
    original.  A [Generic] clone calls the callback of the original. *)
Theorem lower_of_clone (n n' : Node) (ops : OpList) (loctx : LoweringContext) :
  constructed n ->
  Clone n ops = Some n' ->
  (is_generic (params n) = false ->
   (exists out, Lower invoke n loctx = Some [out])
   /\ (exists out, Lower invoke n' loctx = Some [out])
   /\ num_outputs n = 1%Z)
  /\ match params n with
     | ProdP dimensions keep dtype =>
         exists x, ops !! 0 = Some x
                   /\ Lower invoke n' loctx
                      = Some [LowerProd (loctx x) dimensions keep dtype]
     | LeakyReluP negative_slope =>
         exists x, ops !! 0 = Some x
                   /\ Lower invoke n' loctx
                      = Some [BuildLeakyRelu (loctx x) negative_slope]
     | UpsampleNearestP output_size =>
         exists x, ops !! 0 = Some x
                   /\ Lower invoke n' loctx
                      = Some [LowerForward2d "ResizeNearest" (loctx x)
                                (GetForwardOutputShape2d (Value_shape x)
                                                         output_size)
                                false false]
     | SoftshrinkP lambda =>
         exists x, ops !! 0 = Some x
                   /\ Lower invoke n' loctx
                      = Some [BuildSoftshrink (loctx x) lambda]
     | ReflectionPad2dBackwardP padding =>
         exists g x, ops !! 0 = Some g /\ ops !! 1 = Some x
                     /\ Lower invoke n' loctx
                        = Some [BuildReflectionPad2dBackward (loctx g)
                                  (loctx x) padding]
     | LogSoftmaxBackwardP dim =>
         exists g o, ops !! 0 = Some g /\ ops !! 1 = Some o
                     /\ Lower invoke n' loctx
                        = Some [BuildLogSoftmaxGrad (loctx g) (loctx o) dim]
     | UnselectP dim start end_ stride =>
         exists t s, ops !! 0 = Some t /\ ops !! 1 = Some s
                     /\ Lower invoke n' loctx
                        = Some [BuildUnselect (loctx t) (loctx s) dim start
                                              end_ stride]
     | ExpandP size =>
         exists x, ops !! 0 = Some x
                   /\ Lower invoke n' loctx
                      = Some [BuildExpand (loctx x) size]
     | HardtanhBackwardP min_val max_val =>
         exists g x, ops !! 0 = Some g /\ ops !! 1 = Some x
                     /\ Lower invoke n' loctx
                        = Some [BuildHardtanhBackward (loctx g) (loctx x)
                                                      min_val max_val]
     | GenericP lower_fn _ =>
         Lower invoke n' loctx = invoke lower_fn n' loctx
     end.
Proof.
  intros Hn Hc.
  destruct Hn; destruct ops as [|x0 [|x1 rest]]; unfold Clone in Hc;
    simplify_eq/=; (split; [intros ?; try done; eauto|eauto 6]).
Qed.

End CloneFacts.

Section MoreSamples.
#[local] Existing Instance sample_hashing.
#[local] Existing Instance shape_only_backend.
#[local] Existing Instance shape_only_elementwise.
Local Open Scope Z_scope.

Lemma clone_composes_witness :
  let a : Value := sample_input [2; 3] 0 in
  let b : Value := sample_input [2; 3] 1 in
  let c : Value := sample_input [4; 3] 2 in
  let n := HardtanhBackward a b (ScalarInt (-1)) (ScalarInt 1) in
  let n1 := HardtanhBackward c a (ScalarInt (-1)) (ScalarInt 1) in
  constructed n
  /\ Clone n [c; a] = Some n1
  /\ Clone n1 [b; c; a] = Clone n [b; c; a]
  /\ Clone n1 (operands n) = Some n.
Proof.
  intros a b c n n1. split; [constructor|]. split; [reflexivity|].
  apply (clone_composes n n1 [c; a] [b; c; a]); [constructor|reflexivity].
Defined.

Lemma clone_shape_witness :
  let a : Value := sample_input [2; 3] 0 in
  let c : Value := sample_input [4; 3] 2 in
  let g := Generic "aten::add" [a; a] (ArrayShape 11 [2; 3]) 0%nat 1 5 in
  constructed g
  /\ Clone g [c; c]
     = Some (Generic "aten::add" [c; c] (ArrayShape 11 [2; 3]) 0%nat 1 5)
  /\ forall n', Clone g [c; c] = Some n' ->
                shape n' = shape g /\ operands n' = [c; c].
Proof.
  intros a c g. split; [constructor|]. split; [reflexivity|].
  intros n' Hc. apply (clone_shape g n' [c; c]); [constructor|exact Hc].
Defined.

Lemma lower_of_clone_witness :
  let a : Value := sample_input [2; 3] 0 in
  let c : Value := sample_input [4; 3] 2 in
  let n := LeakyRelu a 7 in
  constructed n
  /\ Clone n [c] = Some (LeakyRelu c 7)
  /\ exists x, [c] !! 0%nat = Some x
               /\ Lower no_callbacks (LeakyRelu c 7) shape_only_loctx
                  = Some [BuildLeakyRelu (shape_only_loctx x) 7].
Proof.
  intros a c n. split; [constructor|]. split; [reflexivity|].
  destruct (lower_of_clone no_callbacks n (LeakyRelu c 7) [c] shape_only_loctx)
    as [_ Hl]; [constructor|reflexivity|].
  exact Hl.
Defined.

End MoreSamples.
End IRMore.

(* ===================================================================== *)
(** * Facts about scalar access and equality on tensors *)
(* ===================================================================== *)

Module TensorOpsFacts.
Import TensorEq TensorOps.

Section ScalarFacts.
Context {Scalar : Type} (contiguousSize : list Z -> Z).
Implicit Types (t : Tensor Scalar).

(** The contiguous size of the empty shape, as for the product of the
    dimensions. *)
Hypothesis contiguousSize_nil : contiguousSize [] = 1%Z.

(** X13.  On a tensor with as many scalars as its shape asks for,
    [scalar] never stops at the index; when it has a value,
    [scalarized()] returns the same; [scalarized()] returns exactly
    when the contiguous size is 1, which includes tensors of rank above
    0 whose [scalar] is [nil]. *)
Theorem scalar_and_scalarized t :
  well_formed contiguousSize t ->
  (exists o, scalar t = Ok o)
  /\ (forall x, scalar t = Ok (Some x) ->
                scalarized contiguousSize t = Ok x)
  /\ (contiguousSize (shape t) = 1%Z <->
      exists x, scalarized contiguousSize t = Ok x)
  /\ (contiguousSize (shape t) = 1%Z -> rank t <> 0 ->
      scalar t = Ok None).
Proof.
  unfold well_formed, scalar, scalarized, isScalar, rank, first_scalar.
  intros Hwf. destruct t as [sh l]. simpl in *.
  split_and!.
  - case_bool_decide as Hr; [|eauto].
    apply length_zero_iff_nil in Hr as ->. rewrite contiguousSize_nil in Hwf.
    destruct l as [|x l]; simpl in *; [lia|eauto].
  - intros x. case_bool_decide as Hr; [|done].
    apply length_zero_iff_nil in Hr as ->.
    rewrite decide_True by apply contiguousSize_nil.
    destruct l as [|y l]; simpl; [done|]. by intros [= ->].
  - split.
    + intros H1. rewrite decide_True by done.
      destruct l as [|x l]; simpl in *; [lia|eauto].
    + intros [x Hx]. by case_decide.
  - intros _ Hr. by rewrite bool_decide_eq_false_2.
Qed.

End ScalarFacts.

Section Equality.
Context {Scalar : Type} (contiguousSize : list Z -> Z).
Context (scalar_eq scalar_ne : Scalar -> Scalar -> bool).
Implicit Types (a b : Tensor Scalar).

Lemma all_zip_eq (xs ys : list Scalar) :
  (forall x y, scalar_eq x y = true <-> x = y) ->
  length xs = length ys ->
  all (zip_with scalar_eq xs ys) = true <-> xs = ys.
Proof.
  intros Heq. revert ys.
  unfold all.
  induction xs as [|x xs IH]; intros [|y ys] Hlen; simplify_eq/=; [done|].
  rewrite andb_true_iff, (IH ys Hlen). unfold id. rewrite Heq.
  split; [by intros [-> ->]|by intros [= -> ->]].
Qed.

(** X15.  When the element-wise comparison decides equality of
    scalars, [==] on tensors with as many scalars as their shapes ask
    for is true exactly on equal tensors (same shape, same scalars),
    and [!=] exactly on different ones. *)
Theorem eq_decides_equality a b :
  (forall x y, scalar_eq x y = true <-> x = y) ->
  (forall x y, scalar_ne x y = negb (scalar_eq x y)) ->
  well_formed contiguousSize a -> well_formed contiguousSize b ->
  (fst (Tensor_eq scalar_eq a b) = true <-> a = b)
  /\ (fst (Tensor_ne scalar_ne a b) = true <-> a <> b).
Proof.
  intros Heq Hne Ha Hb.
  assert (Hiff : fst (Tensor_eq scalar_eq a b) = true <-> a = b).
  { unfold Tensor_eq. destruct (decide (shape a = shape b)) as [Hs|Hs]; simpl.
    - unfold elementwise_eq. rewrite all_zip_eq; [|done|].
      + destruct a, b; simpl in *. split; [by intros ->; subst|by intros [= _ ->]].
      + unfold well_formed in *. rewrite Hs in Ha. lia.
    - split; [done|]. by intros ->. }
  split; [done|].
  assert (Hneg : fst (Tensor_ne scalar_ne a b)
                 = negb (fst (Tensor_eq scalar_eq a b))).
  { unfold Tensor_ne, Tensor_eq.
    destruct (decide (shape a = shape b)); simpl; [|done].
    apply (TensorEqFacts.any_ne_not_all_eq scalar_eq scalar_ne Hne). }
  rewrite Hneg, negb_true_iff, <- not_true_iff_false. by rewrite Hiff.
Qed.

(** X16.  [==] is symmetric whenever the comparison of scalars is, down
    to the operations dispatched; it is reflexive on a tensor only if
    every scalar of the tensor equals itself. *)
Theorem eq_symmetric_not_reflexive a b :
  (forall x y, scalar_eq x y = scalar_eq y x) ->
  Tensor_eq scalar_eq a b = Tensor_eq scalar_eq b a
  /\ fst (Tensor_eq scalar_eq a a)
     = forallb (fun x => scalar_eq x x) (scalars a).
Proof.
  intros Hsym. split.
  - unfold Tensor_eq.
    destruct (decide (shape a = shape b)) as [Hs|Hs].
    + rewrite decide_True by done. f_equal. unfold elementwise_eq. f_equal.
      generalize (scalars b). induction (scalars a) as [|x xs IH];
        intros [|y ys]; simpl; try done.
      by rewrite Hsym, IH.
    + by rewrite decide_False by done.
  - unfold Tensor_eq. rewrite decide_True by done. simpl.
    unfold elementwise_eq, all.
    induction (scalars a) as [|x xs IH]; simpl; [done|].
    by rewrite <- IH.
Qed.

End Equality.

Lemma scalar_and_scalarized_witness :
  let t := mkTensor [1; 1]%Z [8%Z] in
  product [] = 1%Z
  /\ well_formed product t
  /\ scalar t = Ok None
  /\ exists x, scalarized product t = Ok x.
Proof.
  intros t. split; [reflexivity|]. split; [reflexivity|].
  destruct (scalar_and_scalarized product eq_refl t eq_refl)
    as (_ & _ & Hsz & Hnone).
  split; [apply Hnone; [reflexivity|discriminate]|].
  apply Hsz. reflexivity.
Defined.

Lemma eq_decides_equality_witness :
  let a := mkTensor [2]%Z [1; 2]%Z in
  let b := mkTensor [2]%Z [1; 3]%Z in
  let ne := fun x y : Z => negb (x =? y)%Z in
  well_formed product a /\ well_formed product b
  /\ a <> b
  /\ fst (Tensor_ne ne a b) = true.
Proof.
  intros a b ne.
  assert (Hab : a <> b) by discriminate.
  split; [reflexivity|]. split; [reflexivity|]. split; [exact Hab|].
  apply (eq_decides_equality product Z.eqb ne a b Z.eqb_eq
           (fun _ _ => eq_refl) eq_refl eq_refl).
  exact Hab.
Defined.

(** A comparison that is symmetric but not reflexive, as that of
    floating-point numbers with a NaN (here the value 0). *)
Lemma eq_symmetric_not_reflexive_witness :
  let feq := fun x y : Z => negb (x =? 0)%Z && (x =? y)%Z in
  let a := mkTensor [2]%Z [1; 0]%Z in
  (forall x y, feq x y = feq y x)
  /\ fst (Tensor_eq feq a a) = false.
Proof.
  intros feq a.
  assert (Hsym : forall x y, feq x y = feq y x).
  { intros x y. unfold feq. rewrite (Z.eqb_sym y x).
    destruct (Z.eqb_spec x y) as [->|Hxy]; [reflexivity|].
    by rewrite !andb_false_r. }
  split; [exact Hsym|].
  destruct (eq_symmetric_not_reflexive feq a a Hsym) as [_ Hrefl].
  rewrite Hrefl. reflexivity.
Defined.

End TensorOpsFacts.
